(** * Invisible cloak: segmentation, compositing and background acquisition

    A shallow embedding of [invisible_cloak.py] and [background.py].
    Arrays are nested lists (rows of cells); the OpenCV and NumPy calls the
    two scripts make are written out with the semantics of 8-bit arrays:
    [inRange], the element-wise [|], [erode]/[dilate]/[morphologyEx],
    [bitwise_not], the masked [bitwise_and], the saturating [add],
    [flip], [np.stack], [np.median] and [astype(np.uint8)].  Colour
    conversion and resizing are taken as parameters of the session,
    [os.path.abspath] as a parameter of the background acquisition. *)

From stdpp Require Import base numbers list sorting strings pretty.
From Stdlib Require Import QArith Qround Ascii.

Close Scope Q_scope.
Open Scope Z_scope.
Open Scope nat_scope.

(** ** Two-dimensional arrays *)

Module Array.

Abbreviation mat A := (list (list A)).

Section Ops.
Context {A B C : Type}.

Definition rows (m : mat A) : nat := length m.

Definition cols (m : mat A) : nat :=
  match m with
  | [] => 0
  | r :: _ => length r
  end.

(** [m.shape[:2]] *)
Definition shape2 (m : mat A) : nat * nat := (rows m, cols m).

(** [m[i][j]], [None] outside the array. *)
Definition get (m : mat A) (i j : nat) : option A :=
  r ← m !! i; r !! j.

(** Element-wise application of [f]. *)
Definition mmap (f : A → B) (m : mat A) : mat B :=
  (λ r : list A, f <$> r) <$> m.

(** Element-wise combination of two arrays. *)
Definition mzip_with (f : A → B → C) (m1 : mat A) (m2 : mat B) : mat C :=
  zip_with (zip_with f) m1 m2.

(** A new array of the shape of [m], the cell at [(i, j)] computed by [f]. *)
Definition mimap (f : nat → nat → A → B) (m : mat A) : mat B :=
  imap (λ i r, imap (λ j x, f i j x) r) m.

(** A rectangular array of [h] rows and [w] columns. *)
Definition has_shape (m : mat A) (h w : nat) : Prop :=
  rows m = h ∧ cols m = w ∧ Forall (λ r, length r = w) m.

(** Every cell satisfies [P]. *)
Definition all_cells (P : A → Prop) (m : mat A) : Prop :=
  Forall (Forall P) m.
End Ops.

Definition same_shape {A B} (m1 : mat A) (m2 : mat B) : bool :=
  bool_decide (shape2 m1 = shape2 m2).

End Array.

Import Array.

(** ** Pixels *)

(** A three-channel sample: B, G, R in a camera frame; H, S, V after the
    colour conversion. *)
Record px (A : Type) := Px { ch0 : A; ch1 : A; ch2 : A }.
Arguments Px {A} _ _ _.
Arguments ch0 {A} _.
Arguments ch1 {A} _.
Arguments ch2 {A} _.

Definition px_map {A B} (f : A → B) (p : px A) : px B :=
  Px (f (ch0 p)) (f (ch1 p)) (f (ch2 p)).

Definition px_zip {A B C} (f : A → B → C) (p : px A) (q : px B) : px C :=
  Px (f (ch0 p) (ch0 q)) (f (ch1 p) (ch1 q)) (f (ch2 p) (ch2 q)).

Inductive channel := C0 | C1 | C2.

Definition chan {A} (c : channel) (p : px A) : A :=
  match c with
  | C0 => ch0 p
  | C1 => ch1 p
  | C2 => ch2 p
  end.

(** An 8-bit pixel, its channels carried as integers. *)
Definition pixel := px Z.
Abbreviation image := (list (list pixel)).
Abbreviation mask := (list (list Z)).

Definition zero_pixel : pixel := Px 0%Z 0%Z 0%Z.

Definition uint8 (v : Z) : Prop := (0 ≤ v ≤ 255)%Z.
Definition uint8_pixel (p : pixel) : Prop :=
  uint8 (ch0 p) ∧ uint8 (ch1 p) ∧ uint8 (ch2 p).
Definition uint8_image (img : image) : Prop := all_cells uint8_pixel img.

(** A mask cell is fully unset or fully set. *)
Definition is_binary (v : Z) : Prop := v = 0%Z ∨ v = 255%Z.
Definition binary (m : mask) : Prop := all_cells is_binary m.

(** [cv2.flip(src, flipCode)]: 0 flips around the x-axis, a positive code
    around the y-axis (the mirror of both scripts), a negative one both. *)
Definition flip {A} (src : mat A) (flipCode : Z) : mat A :=
  if decide (flipCode = 0)%Z then reverse src
  else if decide (0 < flipCode)%Z then (λ r : list A, reverse r) <$> src
  else reverse ((λ r : list A, reverse r) <$> src).

(** ** invisible_cloak.py *)

Module Cloak.

(** *** Segmentation: [build_red_mask] *)

(** [lowerb[c] <= p[c] <= upperb[c]] on every channel. *)
Definition in_bounds (lowerb upperb p : pixel) : bool :=
  ((ch0 lowerb <=? ch0 p) && (ch0 p <=? ch0 upperb) &&
   (ch1 lowerb <=? ch1 p) && (ch1 p <=? ch1 upperb) &&
   (ch2 lowerb <=? ch2 p) && (ch2 p <=? ch2 upperb))%Z.

(** [cv2.inRange]: 255 where the pixel is within the bounds, 0 elsewhere. *)
Definition inRange (src : image) (lowerb upperb : pixel) : mask :=
  mmap (λ p, if in_bounds lowerb upperb p then 255%Z else 0%Z) src.

(** [a | b] on arrays. *)
Definition np_or (a b : mask) : mask := mzip_with Z.lor a b.

(** [np.ones((h, w), np.uint8)] *)
Definition np_ones (h w : nat) : mask := replicate h (replicate w 1%Z).

(** The cells of the structuring element that are not zero. *)
Definition kernel_cells (kernel : mask) : list (nat * nat) :=
  concat (imap (λ a row,
    omap id (imap (λ b v, if decide (v = 0%Z) then None else Some (a, b)) row))
    kernel).

(** The positions the structuring element covers when its anchor (its
    centre) is placed at [(i, j)]; positions above or left of the array
    are dropped here, those below or right of it by [get]. *)
Definition neighbours (kernel : mask) (i j : nat) : list (nat * nat) :=
  let ai := Nat.div (rows kernel) 2 in
  let aj := Nat.div (cols kernel) 2 in
  omap (λ ab : nat * nat,
    if decide (ai ≤ i + ab.1 ∧ aj ≤ j + ab.2)
    then Some (i + ab.1 - ai, j + ab.2 - aj) else None)
    (kernel_cells kernel).

(** The values of [src] under the structuring element at [(i, j)].  With
    the default border of the morphology functions, positions outside the
    array do not take part in the minimum or maximum. *)
Definition window (src : mask) (kernel : mask) (i j : nat) : list Z :=
  omap (λ ij : nat * nat, get src ij.1 ij.2) (neighbours kernel i j).

Definition erode1 (src kernel : mask) : mask :=
  mimap (λ i j _, foldr Z.min 255%Z (window src kernel i j)) src.

Definition dilate1 (src kernel : mask) : mask :=
  mimap (λ i j _, foldr Z.max 0%Z (window src kernel i j)) src.

(** [cv2.erode(src, kernel, iterations=n)] *)
Definition erode (src kernel : mask) (iterations : nat) : mask :=
  Nat.iter iterations (λ m, erode1 m kernel) src.

(** [cv2.dilate(src, kernel, iterations=n)] *)
Definition dilate (src kernel : mask) (iterations : nat) : mask :=
  Nat.iter iterations (λ m, dilate1 m kernel) src.

(** [cv2.morphologyEx(src, cv2.MORPH_OPEN, kernel, iterations=n)]:
    [n] erosions followed by [n] dilations. *)
Definition morphologyEx_OPEN (src kernel : mask) (iterations : nat) : mask :=
  dilate (erode src kernel iterations) kernel iterations.

Definition lower_red1 : pixel := Px 0%Z 120%Z 70%Z.
Definition upper_red1 : pixel := Px 10%Z 255%Z 255%Z.
Definition lower_red2 : pixel := Px 170%Z 120%Z 70%Z.
Definition upper_red2 : pixel := Px 180%Z 255%Z 255%Z.
Definition lower_orange : pixel := Px 10%Z 100%Z 70%Z.
Definition upper_orange : pixel := Px 25%Z 255%Z 255%Z.

(** The three (lower, upper) intervals [build_red_mask] tests, in order. *)
Definition color_ranges : list (pixel * pixel) :=
  [(lower_red1, upper_red1); (lower_red2, upper_red2);
   (lower_orange, upper_orange)].

(** [mask1 | mask2 | mask3], the mask before cleaning. *)
Definition raw_mask (hsv : image) : mask :=
  let mask1 := inRange hsv lower_red1 upper_red1 in
  let mask2 := inRange hsv lower_red2 upper_red2 in
  let mask3 := inRange hsv lower_orange upper_orange in
  np_or (np_or mask1 mask2) mask3.

Definition kernel : mask := np_ones 3 3.

(** The mask after [morphologyEx], before the last dilation. *)
Definition opened_mask (hsv : image) : mask :=
  morphologyEx_OPEN (raw_mask hsv) kernel 2.

Definition build_red_mask (hsv : image) : mask :=
  let mask := raw_mask hsv in
  let mask := morphologyEx_OPEN mask kernel 2 in
  let mask := dilate mask kernel 1 in
  mask.

(** *** Compositing: the loop body of [main] *)

(** [cv2.bitwise_not] on an 8-bit array. *)
Definition bitwise_not (src : mask) : mask :=
  mmap (λ v, Z.land (Z.lnot v) 255) src.

(** [cv2.bitwise_and(src1, src2, mask=m)]: the conjunction where the mask
    is not zero, zero elsewhere (the destination is a fresh array); an
    error when the sizes differ. *)
Definition bitwise_and (src1 src2 : image) (m : mask) : option image :=
  if same_shape src1 src2 && same_shape src1 m then
    Some (mzip_with
            (λ (pq : pixel * pixel) (v : Z),
               if decide (v = 0%Z) then zero_pixel
               else px_zip Z.land pq.1 pq.2)
            (mzip_with pair src1 src2) m)
  else None.

(** The conversion to an 8-bit value at the end of an arithmetic call. *)
Definition saturate_u8 (v : Z) : Z := Z.max 0 (Z.min 255 v).

(** [cv2.add]: the saturated channel-wise sum; an error when the sizes
    differ. *)
Definition add (src1 src2 : image) : option image :=
  if same_shape src1 src2 then
    Some (mzip_with (px_zip (λ a b, saturate_u8 (a + b)%Z)) src1 src2)
  else None.

Definition background_part (bg : image) (cloak_mask : mask) : option image :=
  bitwise_and bg bg cloak_mask.

Definition current_part (frame : image) (cloak_mask : mask) : option image :=
  let inv_mask := bitwise_not cloak_mask in
  bitwise_and frame frame inv_mask.

(** [final] of the loop body, from the mirrored frame, the background
    and the cloak mask. *)
Definition composite (frame bg : image) (cloak_mask : mask) : option image :=
  bp ← background_part bg cloak_mask;
  cp ← current_part frame cloak_mask;
  add bp cp.

Inductive interpolation :=
  INTER_NEAREST | INTER_LINEAR | INTER_CUBIC | INTER_AREA.

(** The state the loop of [main] carries: the background, and a record
    of what happened (the calls to [resize], the frames shown). *)
Record session := Session {
  bg : image;
  resized : list (nat * nat * interpolation);
  shown : list image
}.

Section Loop.
(** [cv2.cvtColor(_, cv2.COLOR_BGR2HSV)] *)
Variable cvtColor_BGR2HSV : image → image.
(** [cv2.resize(src, (width, height), interpolation=_)] *)
Variable resize : image → nat * nat → interpolation → image.

(** The background after the size test of the loop body. *)
Definition fit_background (s : session) (frame : image) : session :=
  if decide (shape2 (bg s) ≠ shape2 frame) then
    Session (resize (bg s) (cols frame, rows frame) INTER_AREA)
            (resized s ++ [(cols frame, rows frame, INTER_AREA)])
            (shown s)
  else s.

(** One pass through the loop body for one result of [cap.read()]:
    [None] for a read that is not ok.  The result is [None] when an
    OpenCV call raises. *)
Definition tick (s : session) (read : option image) : option session :=
  match read with
  | None => Some s
  | Some frame =>
      let frame := flip frame 1 in
      let s := fit_background s frame in
      let hsv := cvtColor_BGR2HSV frame in
      let cloak_mask := build_red_mask hsv in
      final ← composite frame (bg s) cloak_mask;
      Some (Session (bg s) (resized s) (shown s ++ [final]))
  end.

(** The loop over the reads that happen before the quit key. *)
Fixpoint run (s : session) (reads : list (option image)) : option session :=
  match reads with
  | [] => Some s
  | r :: reads => s ← tick s r; run s reads
  end.
End Loop.

End Cloak.

(** ** background.py *)

Module Background.

(** [np.stack(frames, axis=0)]: an error on an empty list and on frames
    of different shapes. *)
Definition np_stack (frames : list image) : option (list image) :=
  match frames with
  | [] => None
  | f0 :: _ =>
      if forallb (λ f, same_shape f0 f) frames then Some frames else None
  end.

(** The pixels at [(i, j)] along axis 0 of the stack. *)
Definition samples (stack : list image) (i j : nat) : list pixel :=
  omap (λ f : image, get f i j) stack.

(** [np.median] of a one-dimensional sample: the middle element of the
    sorted values, or the mean of the two middle elements.  The result is
    a float; halves of integers below 2^53 are exact there, so a rational
    carries it. *)
Definition np_median (vals : list Z) : Q :=
  let s := merge_sort Z.le vals in
  let n := length s in
  if Nat.odd n then inject_Z (nth (Nat.div n 2) s 0%Z)
  else ((inject_Z (nth (Nat.div n 2 - 1) s 0%Z) +
         inject_Z (nth (Nat.div n 2) s 0%Z)) / 2)%Q.

(** [np.median(stack, axis=0)] *)
Definition np_median_axis0 (stack : list image) : mat (px Q) :=
  match stack with
  | [] => []
  | f0 :: _ =>
      mimap (λ i j _,
        let ps := samples stack i j in
        Px (np_median (ch0 <$> ps)) (np_median (ch1 <$> ps))
           (np_median (ch2 <$> ps))) f0
  end.

(** [.astype(np.uint8)] on a float: the fraction is dropped, the integer
    reduced to 8 bits. *)
Definition astype_uint8 (q : Q) : Z :=
  (Z.quot (Qnum q) (Z.pos (Qden q)) mod 256)%Z.

(** [np.median(np.stack(frames, axis=0), axis=0).astype(np.uint8)] *)
Definition median_background (frames : list image) : option image :=
  stack ← np_stack frames;
  Some (mmap (px_map astype_uint8) (np_median_axis0 stack)).

(** The camera: the result of the [k]-th [cap.read()], [None] when the
    read is not ok. *)
Definition camera := nat → option image.

(** The capture loop:
    [for _ in range(count): ok2, f = cap.read(); if not ok2: continue; ...]
    from read number [pos] on; returns the frames kept and the number of
    the next read. *)
Fixpoint capture_loop (cap : camera) (pos count : nat) (frames : list image)
  : list image * nat :=
  match count with
  | 0 => (frames, pos)
  | S count =>
      match cap pos with
      | None => capture_loop cap (S pos) count frames
      | Some f => capture_loop cap (S pos) count (frames ++ [flip f 1])
      end
  end.

Inductive event :=
  | Print (msg : string)
  | ImWrite (path : string) (img : image)
  | ImShow (window : string) (img : image).

(** How the handler leaves the preview loop. *)
Inductive control := Continue | Break | Raise.

(** The SPACE branch of [main]: what it prints, writes and shows, how it
    leaves the loop, and the number of the next read.  [abspath] is
    [os.path.abspath], whose result depends on the working directory of
    the process. *)
Definition on_space (abspath : string → string) (cap : camera) (pos : nat)
    (args_frames : Z) (args_output : string)
  : list event * control * nat :=
  let capturing :=
    Print "Capturing background... please keep the scene still." in
  let '(frames, pos) := capture_loop cap pos (Z.to_nat args_frames) [] in
  match frames with
  | [] => ([capturing; Print "Failed to capture frames. Try again."],
           Continue, pos)
  | _ :: _ =>
      match median_background frames with
      | None => ([capturing], Raise, pos)
      | Some median =>
          ([capturing; ImWrite args_output median;
            Print ("Saved background to " +:+ abspath args_output);
            ImShow "Saved Background" median], Break, pos)
      end
  end.

End Background.

(** ** Vocabulary of the properties *)

(** The bounds test of [inRange], as a proposition: every channel within
    the closed interval. *)
Definition within (lowerb upperb p : pixel) : Prop :=
  (ch0 lowerb ≤ ch0 p ≤ ch0 upperb)%Z ∧
  (ch1 lowerb ≤ ch1 p ≤ ch1 upperb)%Z ∧
  (ch2 lowerb ≤ ch2 p ≤ ch2 upperb)%Z.

(** Every channel strictly between the bounds. *)
Definition strictly_within (lowerb upperb p : pixel) : Prop :=
  (ch0 lowerb < ch0 p < ch0 upperb)%Z ∧
  (ch1 lowerb < ch1 p < ch1 upperb)%Z ∧
  (ch2 lowerb < ch2 p < ch2 upperb)%Z.

(** The pixel lies in some configured interval. *)
Definition cloak_coloured (p : pixel) : Prop :=
  ∃ lo hi, (lo, hi) ∈ Cloak.color_ranges ∧ within lo hi p.

(** The mask is set on rows [a..b], columns [c..d] (bounds included). *)
Definition set_on (m : mask) (a b c d : nat) : Prop :=
  ∀ i j, a ≤ i ≤ b → c ≤ j ≤ d → get m i j = Some 255%Z.

(** Rows [r0 .. r0+bh-1], columns [c0 .. c0+bw-1]. *)
Definition in_block (r0 c0 bh bw i j : nat) : Prop :=
  r0 ≤ i < r0 + bh ∧ c0 ≤ j < c0 + bw.

(** The pixels of the block whose eight neighbours are in the block. *)
Definition block_interior (r0 c0 bh bw i j : nat) : Prop :=
  r0 < i ∧ i + 1 < r0 + bh ∧ c0 < j ∧ j + 1 < c0 + bw.

(** A frame of [h] by [w] pixels with a solid block strictly inside one
    configured interval, every other pixel outside all of them. *)
Definition solid_block (hsv : image) (h w r0 c0 bh bw : nat) : Prop :=
  has_shape hsv h w ∧ r0 + bh ≤ h ∧ c0 + bw ≤ w ∧
  ∃ lo hi, (lo, hi) ∈ Cloak.color_ranges ∧
    ∀ i j p, get hsv i j = Some p →
      (in_block r0 c0 bh bw i j → strictly_within lo hi p) ∧
      (¬ in_block r0 c0 bh bw i j → ¬ cloak_coloured p).

(** The frames delivered by reads [pos .. pos+count-1], in order. *)
Definition delivered (cap : Background.camera) (pos count : nat)
  : list image :=
  omap cap (seq pos count).

(** The numbers of the reads among [pos .. pos+count-1] that failed. *)
Definition failed_reads (cap : Background.camera) (pos count : nat)
  : list nat :=
  omap (λ k, match cap k with None => Some k | Some _ => None end)
       (seq pos count).

(** The stored background holds exactly the median at every position
    and channel. *)
Definition exact_median (frames : list image) : Prop :=
  ∀ out, Background.median_background frames = Some out →
    ∀ i j p c, get out i j = Some p →
      (inject_Z (chan c p) ==
       Background.np_median (chan c <$> Background.samples frames i j))%Q.

(** The intervals are pairwise disjoint at pixel [p]. *)
Definition ranges_disjoint_at (p : pixel) : Prop :=
  ∀ r1 r2, r1 ∈ Cloak.color_ranges → r2 ∈ Cloak.color_ranges → r1 ≠ r2 →
    ¬ (within r1.1 r1.2 p ∧ within r2.1 r2.2 p).

(** The background of the session is the one loaded, or the one resize
    of it to the frame size [(h, w)]. *)
Definition fitted (resize : image → nat * nat → Cloak.interpolation → image)
    (bg0 : image) (h w : nat) (s : Cloak.session) : Prop :=
  (Cloak.bg s = bg0 ∧ Cloak.resized s = []) ∨
  (Cloak.bg s = resize bg0 (w, h) Cloak.INTER_AREA ∧
   Cloak.resized s = [(w, h, Cloak.INTER_AREA)] ∧ shape2 bg0 ≠ (h, w)).

Definition session_inv
    (resize : image → nat * nat → Cloak.interpolation → image)
    (bg0 : image) (h w : nat) (s : Cloak.session) : Prop :=
  fitted resize bg0 h w s ∧
  Forall (λ out : image, has_shape out h w) (Cloak.shown s).

(** ** Sample inputs *)

Module Samples.

(** A saturated red and a colourless dark pixel, as H, S, V. *)
Definition red_hsv : pixel := Px 5%Z 200%Z 200%Z.
Definition green_hsv : pixel := Px 60%Z 0%Z 0%Z.

(** An [n] by [n] frame, red on the block, colourless elsewhere. *)
Definition block_frame (n r0 c0 bh bw : nat) : image :=
  mimap (λ i j _,
    if bool_decide (in_block r0 c0 bh bw i j) then red_hsv else green_hsv)
    (replicate n (replicate n green_hsv)).

(** A frame, a background and a mask of one row and two columns. *)
Definition frame12 : image := [[Px 1%Z 2%Z 3%Z; Px 4%Z 5%Z 6%Z]].
Definition bg12 : image := [[Px 10%Z 20%Z 30%Z; Px 40%Z 50%Z 60%Z]].
Definition mask12 : mask := [[0%Z; 255%Z]].

(** Captures of a single pixel. *)
Definition shot (v : Z) : image := [[Px v v v]].
Definition two_shots : list image := [shot 1; shot 2].
Definition three_shots : list image := [shot 7; shot 200; shot 7].

(** A camera whose second read fails, and one that never delivers. *)
Definition flaky : Background.camera :=
  λ k, if decide (k = 1) then None else Some (shot (Z.of_nat k)).
Definition dead : Background.camera := λ _, None.

(** What [os.path.abspath] returns for a plain file name when the working
    directory is [/home/cloak]. *)
Definition abspath (path : string) : string := "/home/cloak/" +:+ path.

(** The colour conversion on greys and pure reds (B = G = 0): a grey has
    no hue and no saturation, a pure red has hue 0 and full saturation;
    the value is the red channel in both cases. *)
Definition grey_or_red_to_hsv (p : pixel) : pixel :=
  if decide (ch0 p = ch2 p ∧ ch1 p = ch2 p) then Px 0%Z 0%Z (ch2 p)
  else Px 0%Z 255%Z (ch2 p).
Definition cvt_sample (src : image) : image := mmap grey_or_red_to_hsv src.

(** The resize of a single-colour image: the same colour at the new
    size. *)
Definition resize_sample (src : image) (dsize : nat * nat)
    (_ : Cloak.interpolation) : image :=
  replicate dsize.2
    (replicate dsize.1 (default zero_pixel (get src 0 0))).

(** A grey background of one pixel, and frames of two by two pixels: a
    grey one, and one with a red pixel. *)
Definition grey : pixel := Px 128%Z 128%Z 128%Z.
Definition red_bgr : pixel := Px 0%Z 0%Z 255%Z.
Definition bg11 : image := [[grey]].
Definition grey22 : image := [[grey; grey]; [grey; grey]].
Definition cloak22 : image := [[grey; red_bgr]; [grey; grey]].

End Samples.

(** ** Further vocabulary *)

(** Positions at most [n] apart. *)
Definition close (n i i' : nat) : Prop := i' ≤ i + n ∧ i ≤ i' + n.

(** Every pixel of the frame within [n] rows and columns of [(a, b)] is
    cloak-coloured. *)
Definition cloak_around (hsv : image) (n a b : nat) : Prop :=
  ∀ a' b' p, close n a a' → close n b b' →
    get hsv a' b' = Some p → cloak_coloured p.

(** The number of values equal to [v]. *)
Definition occurrences (v : Z) (vals : list Z) : nat :=
  length (filter (λ x, x = v) vals).

Module MoreSamples.

(** A frame of two by two pure red pixels. *)
Definition red22 : image :=
  [[Samples.red_bgr; Samples.red_bgr]; [Samples.red_bgr; Samples.red_bgr]].

(** Captures of one pixel with two sizes among them. *)
Definition wide_shot : image := [[Px 9 9 9; Px 9 9 9]]%Z.
Definition mixed : Background.camera :=
  λ k, if decide (k = 0) then Some (Samples.shot 1) else Some wide_shot.

(** A camera that delivers the same grey frame at every read. *)
Definition still : Background.camera := λ _, Some Samples.grey22.

End MoreSamples.

(** ** The loop of invisible_cloak.py with its keys and outputs *)

Module CloakUI.
Import Cloak.

(** [str.lower] on the ASCII letters. *)
Definition lower_char (c : ascii) : ascii :=
  let n := nat_of_ascii c in
  if (65 <=? n) && (n <=? 90) then ascii_of_nat (n + 32) else c.

Fixpoint lower (s : string) : string :=
  match s with
  | EmptyString => EmptyString
  | String c s => String (lower_char c) (lower s)
  end.

(** [s.endswith(suffix)] *)
Definition endswith (s suffix : string) : bool :=
  (String.length suffix <=? String.length s) &&
  String.eqb
    (String.substring (String.length s - String.length suffix)
               (String.length suffix) s)
    suffix.

(** The codec of the recording, by the extension of the path. *)
Definition fourcc (args_save : string) : string :=
  if endswith (lower args_save) ".mp4" then "mp4v" else "XVID".

(** The frame rate the writer gets: the camera's, or 20 when the camera
    reports none or at most 1 (a rational stands for the float). *)
Definition writer_fps (cap_fps : Q) : Q :=
  if Qle_bool cap_fps 1 then 20%Q else cap_fps.

(** [f"{n:02d}"]: decimal, padded with a zero to two digits. *)
Definition format_02d (n : nat) : string :=
  if n <? 10 then "0" +:+ pretty n else pretty n.

(** [f"snapshot_{snapshot_idx:02d}.png"] *)
Definition snapshot_name (snapshot_idx : nat) : string :=
  "snapshot_" +:+ format_02d snapshot_idx +:+ ".png".

(** [cv2.VideoWriter(path, fourcc, fps, (width, height))] *)
Record writer := Writer {
  w_path : string;
  w_fourcc : string;
  w_fps : Q;
  w_size : nat * nat
}.

(** What the loop carries and what it has put out: the session, the
    writer once it is open, the frames written to it, the snapshot
    counter, the snapshots saved, the frames displayed and the lines
    printed. *)
Record ui := Ui {
  ui_session : session;
  ui_writer : option writer;
  ui_written : list image;
  ui_snapshot_idx : nat;
  ui_snapshots : list (string * image);
  ui_displayed : list image;
  ui_printed : list string
}.

(** ESC or [q]. *)
Definition quit_key (key : Z) : bool :=
  bool_decide (key = 27%Z) || bool_decide (key = 113%Z).

(** The recording holds the frames composited so far, through a writer
    opened for the first of them; without a path there is none. *)
Definition recording_inv (args_save : string) (cap_fps : Q) (u : ui) : Prop :=
  (args_save = "" → ui_written u = [] ∧ ui_writer u = None) ∧
  (args_save ≠ "" →
     ui_written u = shown (ui_session u) ∧
     match ui_written u with
     | [] => ui_writer u = None
     | f0 :: _ =>
         ui_writer u =
           Some (Writer args_save (fourcc args_save) (writer_fps cap_fps)
                        (cols f0, rows f0))
     end).

(** The snapshots are numbered from 1 in the order they were saved,
    each one a frame composited in the session and reported by a line. *)
Definition snapshots_inv (u : ui) : Prop :=
  (ui_snapshots u).*1
  = snapshot_name <$> seq 1 (length (ui_snapshots u)) ∧
  ui_snapshot_idx u = S (length (ui_snapshots u)) ∧
  Forall (λ ni : string * image, ni.2 ∈ shown (ui_session u))
         (ui_snapshots u) ∧
  ui_printed u
  = (λ ni : string * image, "Saved " +:+ ni.1) <$> ui_snapshots u.

Section Main.
Variable cvtColor_BGR2HSV : image → image.
Variable resize : image → nat * nat → interpolation → image.
(** The copy of the frame with the help line drawn on it by
    [cv2.putText]. *)
Variable putText : image → image.
Variable args_save : string.
Variable cap_fps : Q.

(** Mirror, fit the background, segment and composite: the session with
    the fitted background, and [final]. *)
Definition process (s : session) (frame : image) : option (session * image) :=
  let frame := flip frame 1 in
  let s := fit_background resize s frame in
  let hsv := cvtColor_BGR2HSV frame in
  let cloak_mask := build_red_mask hsv in
  final ← composite frame (bg s) cloak_mask;
  Some (s, final).

(** The loop body for a delivered frame and the value [cv2.waitKey]
    returns after it; the flag tells that the loop is left. *)
Definition loop_body (u : ui) (frame : image) (waitKey : Z)
  : option (ui * bool) :=
  sf ← process (ui_session u) frame;
  let s := sf.1 in
  let final := sf.2 in
  let overlay := putText final in
  let writer :=
    match ui_writer u with
    | Some wr => Some wr
    | None =>
        if bool_decide (args_save ≠ "") then
          Some (Writer args_save (fourcc args_save) (writer_fps cap_fps)
                       (cols final, rows final))
        else None
    end in
  let written :=
    match writer with
    | Some _ => ui_written u ++ [final]
    | None => ui_written u
    end in
  let session := Session (bg s) (resized s) (shown s ++ [final]) in
  let displayed := ui_displayed u ++ [overlay] in
  let key := Z.land waitKey 255 in
  if quit_key key then
    Some (Ui session writer written (ui_snapshot_idx u) (ui_snapshots u)
             displayed (ui_printed u), true)
  else if bool_decide (key = 115%Z) then
    let name := snapshot_name (ui_snapshot_idx u) in
    Some (Ui session writer written (S (ui_snapshot_idx u))
             (ui_snapshots u ++ [(name, final)]) displayed
             (ui_printed u ++ ["Saved " +:+ name]), false)
  else
    Some (Ui session writer written (ui_snapshot_idx u) (ui_snapshots u)
             displayed (ui_printed u), false).

(** The loop over the reads observed; [keys] holds what the successive
    calls of [cv2.waitKey] return, -1 once it is used up.  A read that
    is not ok makes no call.  The flag tells whether the loop was left by
    a key. *)
Fixpoint main_loop (u : ui) (reads : list (option image)) (keys : list Z)
  : option (ui * bool) :=
  match reads with
  | [] => Some (u, false)
  | None :: reads => main_loop u reads keys
  | Some frame :: reads =>
      match loop_body u frame (hd (-1)%Z keys) with
      | None => None
      | Some (u, true) => Some (u, true)
      | Some (u, false) => main_loop u reads (tl keys)
      end
  end.

(** The state before the first pass: the background loaded, no writer,
    the snapshot counter at 1. *)
Definition start (bg0 : image) : ui :=
  Ui (Session bg0 [] []) None [] 1 [] [] [].
End Main.

End CloakUI.

(** ** The preview loop of background.py *)

Module Preview.
Import Background.

(** How a run of the observed part of the loop ends. *)
Inductive ending := Quit | Captured | Raised | Running.

Section Main.
(** The copy of the frame with the three help lines drawn on it by
    [cv2.putText]. *)
Variable putText : image → image.
(** [os.path.abspath] *)
Variable abspath : string → string.
Variable args_frames : Z.
Variable args_output : string.

(** The preview loop from read number [pos] on, for [passes] passes;
    [keys] holds what the successive calls of [cv2.waitKey] return, -1
    once it is used up.  A capture makes one such call for every frame it
    keeps. *)
Fixpoint preview (passes : nat) (cap : camera) (pos : nat) (keys : list Z)
  : list event * ending :=
  match passes with
  | 0 => ([], Running)
  | S passes =>
      match cap pos with
      | None => preview passes cap (S pos) keys
      | Some frame =>
          let frame := flip frame 1 in
          let overlay := putText frame in
          let show := ImShow "Background Capture" overlay in
          let key := Z.land (hd (-1)%Z keys) 255 in
          if bool_decide (key = 27%Z) then ([show], Quit)
          else if bool_decide (key = 32%Z) then
            let r := on_space abspath cap (S pos) args_frames args_output in
            let kept :=
              length (delivered cap (S pos) (Z.to_nat args_frames)) in
            match r.1.2 with
            | Continue =>
                let rest := preview passes cap r.2 (drop kept (tl keys)) in
                (show :: r.1.1 ++ rest.1, rest.2)
            | Break => (show :: r.1.1, Captured)
            | Raise => (show :: r.1.1, Raised)
            end
          else
            let rest := preview passes cap (S pos) (tl keys) in
            (show :: rest.1, rest.2)
      end
  end.
End Main.

End Preview.

(** The image files a run writes, in order. *)
Definition writes (log : list Background.event) : list (string * image) :=
  omap (λ e, match e with
             | Background.ImWrite path img => Some (path, img)
             | _ => None
             end) log.
(** ** Facts about arrays *)

Section ArrayFacts.
Context {A B C : Type}.
Implicit Types (m : mat A) (i j h w : nat).

Lemma get_mmap (f : A → B) m i j :
  get (mmap f m) i j = f <$> get m i j.
Proof.
  unfold get, mmap. rewrite list_lookup_fmap.
  destruct (m !! i) as [r|]; simpl; [|done].
  by rewrite list_lookup_fmap.
Qed.

Lemma get_mimap (f : nat → nat → A → B) m i j :
  get (mimap f m) i j = f i j <$> get m i j.
Proof.
  unfold get, mimap. rewrite list_lookup_imap.
  destruct (m !! i) as [r|]; simpl; [|done].
  by rewrite list_lookup_imap.
Qed.

Lemma get_mzip_with (f : A → B → C) m (m2 : mat B) i j :
  get (mzip_with f m m2) i j =
    match get m i j, get m2 i j with
    | Some x, Some y => Some (f x y)
    | _, _ => None
    end.
Proof.
  unfold get, mzip_with. rewrite lookup_zip_with.
  destruct (m !! i) as [r|]; simpl; [|done].
  destruct (m2 !! i) as [r2|]; simpl.
  - rewrite lookup_zip_with.
    destruct (r !! j); simpl; [|done]. by destruct (r2 !! j).
  - by destruct (r !! j).
Qed.

Lemma has_shape_get m h w i j :
  has_shape m h w → i < h → j < w → is_Some (get m i j).
Proof.
  intros (Hr & _ & Hall) Hi Hj. unfold get, rows in *.
  destruct (lookup_lt_is_Some_2 m i) as [r Hri]; [lia|].
  rewrite Hri. simpl. apply lookup_lt_is_Some.
  rewrite Forall_lookup in Hall. by rewrite (Hall _ _ Hri).
Qed.

Lemma get_has_shape m h w i j x :
  has_shape m h w → get m i j = Some x → i < h ∧ j < w.
Proof.
  intros (Hr & _ & Hall) Hg. unfold get, rows in *.
  destruct (m !! i) as [r|] eqn:Hri; simpl in Hg; [|done].
  rewrite Forall_lookup in Hall. pose proof (Hall _ _ Hri) as Hlen.
  apply lookup_lt_Some in Hri. apply lookup_lt_Some in Hg. lia.
Qed.

Lemma has_shape_unique m h w :
  has_shape m h w → shape2 m = (h, w).
Proof. intros (Hr & Hc & _). unfold shape2. by rewrite Hr, Hc. Qed.

Lemma has_shape_mmap (f : A → B) m h w :
  has_shape m h w → has_shape (mmap f m) h w.
Proof.
  intros (Hr & Hc & Hall). unfold has_shape, rows, cols, mmap in *.
  split_and!.
  - by rewrite length_fmap.
  - destruct m; simpl in *; [done|]. by rewrite length_fmap.
  - apply Forall_fmap. eapply Forall_impl; [done|].
    intros r Hlen. simpl. by rewrite length_fmap.
Qed.

Lemma has_shape_mimap (f : nat → nat → A → B) m h w :
  has_shape m h w → has_shape (mimap f m) h w.
Proof.
  intros (Hr & Hc & Hall). unfold has_shape, rows, cols, mimap in *.
  split_and!.
  - by rewrite length_imap.
  - destruct m; simpl in *; [done|]. by rewrite length_imap.
  - apply Forall_lookup. intros i r Hi.
    rewrite list_lookup_imap in Hi.
    destruct (m !! i) as [r0|] eqn:Hri; simpl in Hi; [|done].
    injection Hi as <-. rewrite length_imap.
    rewrite Forall_lookup in Hall. eauto.
Qed.

Lemma has_shape_mzip_with (f : A → B → C) m (m2 : mat B) h w :
  has_shape m h w → has_shape m2 h w → has_shape (mzip_with f m m2) h w.
Proof.
  intros (Hr & Hc & Hall) (Hr2 & Hc2 & Hall2).
  unfold has_shape, rows, cols, mzip_with in *. split_and!.
  - rewrite length_zip_with. lia.
  - destruct m as [|r m], m2 as [|r2 m2]; simpl in *; try lia.
    rewrite length_zip_with. lia.
  - apply Forall_lookup. intros i r Hi.
    rewrite lookup_zip_with in Hi.
    destruct (m !! i) as [r1|] eqn:H1; simpl in Hi; [|done].
    destruct (m2 !! i) as [r2|] eqn:H2; simpl in Hi; [|done].
    injection Hi as <-. rewrite length_zip_with.
    rewrite Forall_lookup in Hall. rewrite Forall_lookup in Hall2.
    rewrite (Hall _ _ H1), (Hall2 _ _ H2). lia.
Qed.

Lemma all_cells_get (P : A → Prop) m :
  all_cells P m ↔ ∀ i j x, get m i j = Some x → P x.
Proof.
  unfold all_cells, get. rewrite Forall_lookup. split.
  - intros H i j x Hg.
    destruct (m !! i) as [r|] eqn:Hri; simpl in Hg; [|done].
    specialize (H _ _ Hri). rewrite Forall_lookup in H. eauto.
  - intros H i r Hri. apply Forall_lookup. intros j x Hj.
    apply (H i j). by rewrite Hri.
Qed.

Lemma same_shape_has_shape m (m2 : mat B) h w :
  has_shape m h w → has_shape m2 h w → same_shape m m2 = true.
Proof.
  intros (Hr & Hc & _) (Hr2 & Hc2 & _).
  unfold same_shape, shape2. apply bool_decide_eq_true. congruence.
Qed.
End ArrayFacts.

(** ** Segmentation *)

Section Segmentation.
Import Cloak.

Lemma in_bounds_within lo hi p : in_bounds lo hi p = true ↔ within lo hi p.
Proof.
  unfold in_bounds, within.
  rewrite !andb_true_iff, !Z.leb_le. tauto.
Qed.

Lemma in_bounds_not_within lo hi p :
  in_bounds lo hi p = false ↔ ¬ within lo hi p.
Proof.
  rewrite <-in_bounds_within. by destruct (in_bounds lo hi p).
Qed.

Lemma get_inRange src lo hi i j :
  get (inRange src lo hi) i j =
    (λ p, if in_bounds lo hi p then 255%Z else 0%Z) <$> get src i j.
Proof. apply get_mmap. Qed.

Lemma get_np_or a b i j :
  get (np_or a b) i j =
    match get a i j, get b i j with
    | Some x, Some y => Some (Z.lor x y)
    | _, _ => None
    end.
Proof. apply get_mzip_with. Qed.

Lemma get_raw_mask hsv i j :
  get (raw_mask hsv) i j =
    (λ p, if in_bounds lower_red1 upper_red1 p
              || in_bounds lower_red2 upper_red2 p
              || in_bounds lower_orange upper_orange p
          then 255%Z else 0%Z) <$> get hsv i j.
Proof.
  unfold raw_mask. rewrite !get_np_or, !get_inRange.
  destruct (get hsv i j) as [p|]; simpl; [|done].
  by destruct (in_bounds lower_red1 upper_red1 p),
    (in_bounds lower_red2 upper_red2 p),
    (in_bounds lower_orange upper_orange p).
Qed.

Lemma cloak_coloured_bounds p :
  cloak_coloured p ↔
    in_bounds lower_red1 upper_red1 p
    || in_bounds lower_red2 upper_red2 p
    || in_bounds lower_orange upper_orange p = true.
Proof.
  unfold cloak_coloured, color_ranges.
  rewrite !orb_true_iff, !in_bounds_within. split.
  - intros (lo & hi & Hin & Hw).
    rewrite !elem_of_cons, elem_of_nil in Hin.
    destruct Hin as [Heq|[Heq|[Heq|[]]]]; injection Heq as -> ->; tauto.
  - intros [[H|H]|H]; eexists _, _; (split; [|exact H]);
      rewrite !elem_of_cons; tauto.
Qed.

(** *** Binary masks *)

Lemma foldr_min_binary l :
  Forall is_binary l → is_binary (foldr Z.min 255%Z l).
Proof.
  unfold is_binary. induction 1 as [|x l Hx _ IH]; simpl; [by right|].
  destruct Hx as [-> | ->], IH as [-> | ->]; auto.
Qed.

Lemma foldr_max_binary l :
  Forall is_binary l → is_binary (foldr Z.max 0%Z l).
Proof.
  unfold is_binary. induction 1 as [|x l Hx _ IH]; simpl; [by left|].
  destruct Hx as [-> | ->], IH as [-> | ->]; auto.
Qed.

(** The values under the structuring element are cells of the source. *)
Lemma window_cells src k i j v :
  v ∈ window src k i j → ∃ i' j', get src i' j' = Some v.
Proof.
  unfold window. rewrite list_elem_of_omap.
  intros ([i' j'] & _ & Hg). eauto.
Qed.

Lemma window_binary src k i j :
  binary src → Forall is_binary (window src k i j).
Proof.
  intros Hb. apply Forall_forall. intros v Hv.
  destruct (window_cells _ _ _ _ _ Hv) as (i' & j' & Hg).
  unfold binary in Hb. rewrite all_cells_get in Hb. eauto.
Qed.

Lemma binary_inRange src lo hi : binary (inRange src lo hi).
Proof.
  apply all_cells_get. intros i j v. rewrite get_inRange.
  destruct (get src i j) as [p|]; simpl; [|done].
  intros [= <-]. unfold is_binary. destruct (in_bounds lo hi p); auto.
Qed.

Lemma binary_np_or a b : binary a → binary b → binary (np_or a b).
Proof.
  unfold binary. rewrite !all_cells_get. intros Ha Hb i j v.
  rewrite get_np_or.
  destruct (get a i j) as [x|] eqn:Hx; [|done].
  destruct (get b i j) as [y|] eqn:Hy; [|done].
  intros [= <-].
  destruct (Ha _ _ _ Hx) as [-> | ->], (Hb _ _ _ Hy) as [-> | ->];
    unfold is_binary; auto.
Qed.

Lemma binary_erode1 src k : binary src → binary (erode1 src k).
Proof.
  intros Hb. apply all_cells_get. intros i j v.
  unfold erode1. rewrite get_mimap.
  destruct (get src i j); simpl; [|done].
  intros [= <-]. by apply foldr_min_binary, window_binary.
Qed.

Lemma binary_dilate1 src k : binary src → binary (dilate1 src k).
Proof.
  intros Hb. apply all_cells_get. intros i j v.
  unfold dilate1. rewrite get_mimap.
  destruct (get src i j); simpl; [|done].
  intros [= <-]. by apply foldr_max_binary, window_binary.
Qed.

Lemma binary_erode src k n : binary src → binary (erode src k n).
Proof.
  intros Hb. unfold erode.
  induction n as [|n IH]; simpl; [done|]. by apply binary_erode1.
Qed.

Lemma binary_dilate src k n : binary src → binary (dilate src k n).
Proof.
  intros Hb. unfold dilate.
  induction n as [|n IH]; simpl; [done|]. by apply binary_dilate1.
Qed.

Lemma binary_raw_mask hsv : binary (raw_mask hsv).
Proof.
  unfold raw_mask. repeat apply binary_np_or; apply binary_inRange.
Qed.

Lemma binary_opened_mask hsv : binary (opened_mask hsv).
Proof.
  unfold opened_mask, morphologyEx_OPEN.
  apply binary_dilate, binary_erode, binary_raw_mask.
Qed.

Lemma binary_build_red_mask hsv : binary (build_red_mask hsv).
Proof.
  unfold build_red_mask.
  apply binary_dilate. apply (binary_opened_mask hsv).
Qed.

(** *** Shapes *)

Lemma has_shape_erode src k n h w :
  has_shape src h w → has_shape (erode src k n) h w.
Proof.
  intros Hs. unfold erode.
  induction n as [|n IH]; simpl; [done|]. by apply has_shape_mimap.
Qed.

Lemma has_shape_dilate src k n h w :
  has_shape src h w → has_shape (dilate src k n) h w.
Proof.
  intros Hs. unfold dilate.
  induction n as [|n IH]; simpl; [done|]. by apply has_shape_mimap.
Qed.

Lemma has_shape_raw_mask hsv h w :
  has_shape hsv h w → has_shape (raw_mask hsv) h w.
Proof.
  intros Hs. unfold raw_mask, np_or, inRange.
  repeat apply has_shape_mzip_with; by apply has_shape_mmap.
Qed.

Lemma has_shape_build_red_mask hsv h w :
  has_shape hsv h w → has_shape (build_red_mask hsv) h w.
Proof.
  intros Hs. unfold build_red_mask, morphologyEx_OPEN.
  by apply has_shape_dilate, has_shape_dilate, has_shape_erode,
    has_shape_raw_mask.
Qed.

End Segmentation.

(** ** Opening and dilation with the 3 by 3 structuring element *)

Section Morphology.
Import Cloak.

Lemma kernel_cells_kernel :
  kernel_cells kernel =
    [(0, 0); (0, 1); (0, 2); (1, 0); (1, 1); (1, 2); (2, 0); (2, 1); (2, 2)].
Proof. reflexivity. Qed.

(** Under the 3 by 3 element: the positions at distance at most one. *)
Lemma elem_of_neighbours i j i' j' :
  (i', j') ∈ neighbours kernel i j ↔
    i' ≤ i + 1 ∧ i ≤ i' + 1 ∧ j' ≤ j + 1 ∧ j ≤ j' + 1.
Proof.
  unfold neighbours. rewrite kernel_cells_kernel.
  change (Nat.div (rows kernel) 2) with 1.
  change (Nat.div (cols kernel) 2) with 1.
  rewrite list_elem_of_omap. split.
  - intros ([a b] & Hin & Heq). simpl in Heq.
    case_decide as Hd; [|done]. injection Heq as <- <-.
    rewrite !elem_of_cons, elem_of_nil in Hin.
    repeat (destruct Hin as [[= -> ->]|Hin]; [lia|]). done.
  - intros (H1 & H2 & H3 & H4).
    exists (i' + 1 - i, j' + 1 - j). split.
    + assert (i' + 1 - i = 0 ∨ i' + 1 - i = 1 ∨ i' + 1 - i = 2) as Ha by lia.
      assert (j' + 1 - j = 0 ∨ j' + 1 - j = 1 ∨ j' + 1 - j = 2) as Hb by lia.
      rewrite !elem_of_cons.
      destruct Ha as [-> | [-> | ->]], Hb as [-> | [-> | ->]]; tauto.
    + simpl. rewrite decide_True by lia. f_equal. f_equal; lia.
Qed.

Lemma elem_of_window src i j v :
  v ∈ window src kernel i j ↔
    ∃ i' j', (i' ≤ i + 1 ∧ i ≤ i' + 1 ∧ j' ≤ j + 1 ∧ j ≤ j' + 1) ∧
             get src i' j' = Some v.
Proof.
  unfold window. rewrite list_elem_of_omap. split.
  - intros ([i' j'] & Hin & Hg). apply elem_of_neighbours in Hin. eauto.
  - intros (i' & j' & Hn & Hg). exists (i', j').
    by rewrite elem_of_neighbours.
Qed.

Lemma foldr_min_all l :
  Forall (λ v, v = 255%Z) l → foldr Z.min 255%Z l = 255%Z.
Proof. induction 1 as [|x l -> _ IH]; simpl; [done|]. by rewrite IH. Qed.

Lemma foldr_max_some l :
  Forall is_binary l → 255%Z ∈ l → foldr Z.max 0%Z l = 255%Z.
Proof.
  intros Hb Hin. pose proof (foldr_max_binary l Hb) as Hm.
  assert (255 ≤ foldr Z.max 0 l)%Z as Hle.
  { clear Hb Hm. induction l as [|x l IH]; [by apply elem_of_nil in Hin|].
    simpl. apply elem_of_cons in Hin as [<- | Hin]; [lia|].
    specialize (IH Hin). lia. }
  destruct Hm as [Hm | Hm]; lia.
Qed.

(** A cell survives one erosion when every neighbour inside the array
    is set. *)
Lemma erode1_set src i j :
  is_Some (get src i j) →
  (∀ i' j' v, i' ≤ i + 1 → i ≤ i' + 1 → j' ≤ j + 1 → j ≤ j' + 1 →
     get src i' j' = Some v → v = 255%Z) →
  get (erode1 src kernel) i j = Some 255%Z.
Proof.
  intros [x Hx] Hall. unfold erode1. rewrite get_mimap, Hx. simpl.
  f_equal. apply foldr_min_all, Forall_forall. intros v Hv.
  apply elem_of_window in Hv as (i' & j' & (?&?&?&?) & Hg). eauto.
Qed.

(** A cell is set by one dilation when some neighbour is set. *)
Lemma dilate1_set src i j i' j' :
  binary src → is_Some (get src i j) →
  i' ≤ i + 1 → i ≤ i' + 1 → j' ≤ j + 1 → j ≤ j' + 1 →
  get src i' j' = Some 255%Z →
  get (dilate1 src kernel) i j = Some 255%Z.
Proof.
  intros Hb [x Hx] H1 H2 H3 H4 Hg.
  unfold dilate1. rewrite get_mimap, Hx. simpl. f_equal.
  apply foldr_max_some; [by apply window_binary|].
  apply elem_of_window. eauto 10.
Qed.

(** One erosion eats at most one ring of a set rectangle. *)
Lemma erode1_block src a b c d :
  set_on src a b c d →
  set_on (erode1 src kernel) (a + 1) (b - 1) (c + 1) (d - 1).
Proof.
  intros Hon i j Hi Hj. apply erode1_set.
  - rewrite Hon; [by eexists|lia..].
  - intros i' j' v ? ? ? ? Hg. rewrite Hon in Hg by lia. congruence.
Qed.

(** One dilation gives a ring back to a set rectangle that is not
    empty, as far as the array goes. *)
Lemma dilate1_block src h w a b c d a' b' c' d' :
  binary src → has_shape src h w → set_on src a b c d →
  a ≤ b → c ≤ d →
  a ≤ a' + 1 → b' ≤ b + 1 → c ≤ c' + 1 → d' ≤ d + 1 →
  b' < h → d' < w →
  set_on (dilate1 src kernel) a' b' c' d'.
Proof.
  intros Hb Hs Hon Hab Hcd Ha Hb' Hc Hd Hh Hw i j Hi Hj.
  apply (dilate1_set src i j (Nat.max a (Nat.min i b))
                             (Nat.max c (Nat.min j d))); try lia; [done| |].
  - apply (has_shape_get src h w); [done|lia..].
  - apply Hon; lia.
Qed.

(** A block of at least 5 by 5 set pixels comes back whole from the
    opening, and the last dilation adds a ring to it. *)
Lemma cleaned_block raw h w r0 c0 bh bw :
  binary raw → has_shape raw h w →
  r0 + bh ≤ h → c0 + bw ≤ w → 5 ≤ bh → 5 ≤ bw →
  set_on raw r0 (r0 + bh - 1) c0 (c0 + bw - 1) →
  ∀ i j, i < h → j < w →
    r0 ≤ i + 1 → i ≤ r0 + bh → c0 ≤ j + 1 → j ≤ c0 + bw →
    get (dilate (morphologyEx_OPEN raw kernel 2) kernel 1) i j = Some 255%Z.
Proof.
  intros Hb Hs Hh Hw Hbh Hbw Hon i j Hi Hj Hi1 Hi2 Hj1 Hj2.
  change (dilate (morphologyEx_OPEN raw kernel 2) kernel 1) with
    (dilate1 (dilate1 (dilate1
       (erode1 (erode1 raw kernel) kernel) kernel) kernel) kernel).
  set (e1 := erode1 raw kernel).
  set (e2 := erode1 e1 kernel).
  set (d1 := dilate1 e2 kernel).
  set (d2 := dilate1 d1 kernel).
  assert (binary e1) as Hb1 by by apply binary_erode1.
  assert (binary e2) as Hb2 by by apply binary_erode1.
  assert (binary d1) as Hb3 by by apply binary_dilate1.
  assert (binary d2) as Hb4 by by apply binary_dilate1.
  assert (has_shape e1 h w) as Hs1 by by apply has_shape_mimap.
  assert (has_shape e2 h w) as Hs2 by by apply has_shape_mimap.
  assert (has_shape d1 h w) as Hs3 by by apply has_shape_mimap.
  assert (has_shape d2 h w) as Hs4 by by apply has_shape_mimap.
  pose proof (erode1_block _ _ _ _ _ Hon) as Hon1. fold e1 in Hon1.
  pose proof (erode1_block _ _ _ _ _ Hon1) as Hon2. fold e2 in Hon2.
  assert (set_on d1 (r0 + 1) (r0 + bh - 2) (c0 + 1) (c0 + bw - 2)) as Hon3.
  { eapply (dilate1_block e2 h w); [done|done|exact Hon2|lia..]. }
  assert (set_on d2 r0 (r0 + bh - 1) c0 (c0 + bw - 1)) as Hon4.
  { eapply (dilate1_block d1 h w); [done|done|exact Hon3|lia..]. }
  assert (set_on (dilate1 d2 kernel) i i j j) as Hon5.
  { eapply (dilate1_block d2 h w); [done|done|exact Hon4|lia..]. }
  apply Hon5; lia.
Qed.

End Morphology.

(** ** Compositing *)

Section Compositing.
Import Cloak.

Lemma get_bitwise_not m i j :
  get (bitwise_not m) i j = (λ v, Z.land (Z.lnot v) 255) <$> get m i j.
Proof. apply get_mmap. Qed.

Lemma has_shape_bitwise_not m h w :
  has_shape m h w → has_shape (bitwise_not m) h w.
Proof. apply has_shape_mmap. Qed.

Lemma px_land_diag (p : pixel) : px_zip Z.land p p = p.
Proof. destruct p. unfold px_zip. simpl. by rewrite !Z.land_diag. Qed.

(** The masked conjunction of an image with itself: the pixel where the
    mask is not zero, the zero pixel elsewhere. *)
Lemma bitwise_and_self src m h w :
  has_shape src h w → has_shape m h w →
  ∃ out, bitwise_and src src m = Some out ∧ has_shape out h w ∧
    ∀ i j, get out i j =
      match get src i j, get m i j with
      | Some p, Some v => Some (if decide (v = 0%Z) then zero_pixel else p)
      | _, _ => None
      end.
Proof.
  intros Hs Hm. unfold bitwise_and.
  rewrite (same_shape_has_shape src src h w) by done.
  rewrite (same_shape_has_shape src m h w) by done. simpl.
  eexists. split; [done|]. split.
  - by repeat apply has_shape_mzip_with.
  - intros i j. rewrite !get_mzip_with.
    destruct (get src i j) as [p|]; [|done].
    destruct (get m i j) as [v|]; [|done].
    simpl. by rewrite px_land_diag.
Qed.

Lemma add_same_shape a b h w :
  has_shape a h w → has_shape b h w →
  ∃ out, add a b = Some out ∧ has_shape out h w ∧
    ∀ i j, get out i j =
      match get a i j, get b i j with
      | Some p, Some q => Some (px_zip (λ x y, saturate_u8 (x + y)%Z) p q)
      | _, _ => None
      end.
Proof.
  intros Ha Hb. unfold add.
  rewrite (same_shape_has_shape a b h w) by done.
  eexists. split; [done|]. split.
  - by apply has_shape_mzip_with.
  - intros i j. by rewrite get_mzip_with.
Qed.

Lemma saturate_u8_id v : uint8 v → saturate_u8 v = v.
Proof. unfold uint8, saturate_u8. lia. Qed.

Lemma add_zero_l (p : pixel) :
  uint8_pixel p → px_zip (λ x y, saturate_u8 (x + y)%Z) zero_pixel p = p.
Proof.
  destruct p as [a b c]. intros (Ha & Hb & Hc). unfold px_zip. simpl in *.
  by rewrite !saturate_u8_id.
Qed.

Lemma add_zero_r (p : pixel) :
  uint8_pixel p → px_zip (λ x y, saturate_u8 (x + y)%Z) p zero_pixel = p.
Proof.
  destruct p as [a b c]. intros (Ha & Hb & Hc). unfold px_zip. simpl in *.
  rewrite !Z.add_0_r. by rewrite !saturate_u8_id.
Qed.

(** The two parts and their sum exist when the sizes agree, and each is
    known cell by cell. *)
Lemma composite_parts frame bg m h w :
  has_shape frame h w → has_shape bg h w → has_shape m h w →
  ∃ bp cp final,
    background_part bg m = Some bp ∧ current_part frame m = Some cp ∧
    composite frame bg m = Some final ∧
    has_shape bp h w ∧ has_shape cp h w ∧ has_shape final h w ∧
    ∀ i j,
      get bp i j =
        match get bg i j, get m i j with
        | Some p, Some v => Some (if decide (v = 0%Z) then zero_pixel else p)
        | _, _ => None
        end ∧
      get cp i j =
        match get frame i j, get m i j with
        | Some p, Some v =>
            Some (if decide (Z.land (Z.lnot v) 255 = 0%Z)
                  then zero_pixel else p)
        | _, _ => None
        end ∧
      get final i j =
        match get bp i j, get cp i j with
        | Some p, Some q => Some (px_zip (λ x y, saturate_u8 (x + y)%Z) p q)
        | _, _ => None
        end.
Proof.
  intros Hf Hb Hm.
  destruct (bitwise_and_self bg m h w Hb Hm) as (bp & Hbp & Hsbp & Hgbp).
  destruct (bitwise_and_self frame (bitwise_not m) h w Hf
              (has_shape_bitwise_not _ _ _ Hm)) as (cp & Hcp & Hscp & Hgcp).
  destruct (add_same_shape bp cp h w Hsbp Hscp) as (final & Hfin & Hsf & Hgf).
  exists bp, cp, final. unfold composite, background_part, current_part.
  rewrite Hbp, Hcp. simpl. split_and!; try done.
  intros i j. split_and!; [done| |done].
  rewrite Hgcp, get_bitwise_not.
  destruct (get frame i j); [|done]. by destruct (get m i j).
Qed.

Lemma has_shape_flip {A} (src : mat A) h w :
  has_shape src h w → has_shape (flip src 1) h w.
Proof.
  intros (Hr & Hc & Hall). unfold flip. simpl.
  unfold has_shape, rows, cols in *. split_and!.
  - by rewrite length_fmap.
  - destruct src; simpl in *; [done|]. by rewrite length_reverse.
  - apply Forall_fmap. eapply Forall_impl; [done|].
    intros r Hlen. simpl. by rewrite length_reverse.
Qed.

End Compositing.

(** ** The session loop *)

Section SessionFacts.
Import Cloak.
Variable cvtColor_BGR2HSV : image → image.
Variable resize : image → nat * nat → interpolation → image.

(** What the two OpenCV calls are known to do to sizes. *)
Hypothesis cvtColor_shape :
  ∀ src h w, has_shape src h w → has_shape (cvtColor_BGR2HSV src) h w.
Hypothesis resize_shape :
  ∀ src h w interp, 0 < h → 0 < w →
    has_shape (resize src (w, h) interp) h w.

Variables (bg0 : image) (h0 w0 h w : nat).
Hypothesis bg0_shape : has_shape bg0 h0 w0.
Hypothesis frame_size : 0 < h ∧ 0 < w.

Local Abbreviation fitted := (fitted resize bg0 h w).
Local Abbreviation session_inv := (session_inv resize bg0 h w).

Lemma fit_background_inv s frame :
  fitted s → has_shape frame h w →
  fitted (fit_background resize s frame) ∧
  has_shape (bg (fit_background resize s frame)) h w ∧
  shown (fit_background resize s frame) = shown s.
Proof.
  intros Hfit Hf. unfold fit_background.
  destruct Hf as (Hr & Hc & Hall).
  assert (shape2 frame = (h, w)) as Hsh by (unfold shape2; congruence).
  rewrite Hr, Hc, Hsh.
  destruct frame_size as [Hh Hw].
  destruct Hfit as [(Hbg & Hres) | (Hbg & Hres & Hne)].
  - rewrite Hbg, Hres. case_decide as Hd; simpl.
    + split_and!; [|by apply resize_shape|done]. right. done.
    + split_and!; [left; done| |done]. rewrite Hbg.
      rewrite (has_shape_unique _ _ _ bg0_shape) in Hd.
      injection Hd as -> ->. exact bg0_shape.
  - assert (has_shape (bg s) h w) as Hs.
    { rewrite Hbg. by apply resize_shape. }
    rewrite (has_shape_unique _ _ _ Hs).
    rewrite decide_False by (intros Hd; by apply Hd).
    split_and!; [right; done|done|done].
Qed.

Lemma tick_inv s read :
  session_inv s → (∀ f, read = Some f → has_shape f h w) →
  ∃ s', tick cvtColor_BGR2HSV resize s read = Some s' ∧ session_inv s' ∧
    (is_Some read ∨ has_shape (bg s) h w → has_shape (bg s') h w).
Proof.
  intros [Hfit Hshown] Hread.
  destruct read as [f|]; simpl.
  2:{ exists s. split_and!; try done. intros [[? [=]]|?]. done. }
  assert (has_shape (flip f 1) h w) as Hf by by apply has_shape_flip, Hread.
  destruct (fit_background_inv s _ Hfit Hf) as (Hfit' & Hbg' & Hsh').
  set (s1 := fit_background resize s (flip f 1)) in *.
  destruct (composite_parts (flip f 1) (bg s1)
              (build_red_mask (cvtColor_BGR2HSV (flip f 1))) h w)
    as (bp & cp & final & _ & _ & Hfin & _ & _ & Hsf & _); [done|done| |].
  { by apply has_shape_build_red_mask, cvtColor_shape. }
  rewrite Hfin. simpl. eexists. split; [done|]. split; [split|]; simpl.
  - exact Hfit'.
  - rewrite Hsh'. apply Forall_app. split; [done|]. by constructor.
  - done.
Qed.

Lemma run_inv reads s :
  session_inv s →
  Forall (λ r : option image, ∀ f, r = Some f → has_shape f h w) reads →
  ∃ s', run cvtColor_BGR2HSV resize s reads = Some s' ∧ session_inv s' ∧
    (Exists is_Some reads ∨ has_shape (bg s) h w → has_shape (bg s') h w).
Proof.
  intros Hinv Hreads. revert s Hinv.
  induction Hreads as [|r reads Hr _ IH]; intros s Hinv; simpl.
  { exists s. split_and!; try done. intros [He|?]; [by inversion He|done]. }
  destruct (tick_inv s r Hinv Hr) as (s1 & Hs1 & Hinv1 & Hsh1).
  rewrite Hs1. simpl.
  destruct (IH s1 Hinv1) as (s2 & Hs2 & Hinv2 & Hsh2).
  exists s2. split_and!; try done.
  intros [He|Hs].
  - inversion He; subst.
    + apply Hsh2. right. apply Hsh1. by left.
    + apply Hsh2. by left.
  - apply Hsh2. right. apply Hsh1. by right.
Qed.

End SessionFacts.

(** ** The capture loop *)

Section Capture.
Import Background.

Lemma capture_loop_spec cap count :
  ∀ pos frames,
    capture_loop cap pos count frames =
      (frames ++ ((λ f : image, flip f 1) <$> delivered cap pos count),
       pos + count).
Proof.
  unfold delivered.
  induction count as [|count IH]; intros pos frames; simpl.
  - by rewrite app_nil_r, Nat.add_0_r.
  - destruct (cap pos) as [f|]; rewrite IH; simpl.
    + rewrite <-app_assoc. simpl. do 2 f_equal. lia.
    + f_equal. lia.
Qed.

Lemma delivered_failed_length cap pos count :
  length (delivered cap pos count) + length (failed_reads cap pos count)
  = count.
Proof.
  unfold delivered, failed_reads. revert pos.
  induction count as [|count IH]; intros pos; simpl; [done|].
  specialize (IH (S pos)). destruct (cap pos); simpl;
    rewrite ?Nat.add_succ_r; f_equal; exact IH.
Qed.

Lemma elem_of_delivered cap pos count f :
  f ∈ delivered cap pos count ↔
    ∃ k, pos ≤ k < pos + count ∧ cap k = Some f.
Proof.
  unfold delivered. rewrite list_elem_of_omap.
  setoid_rewrite elem_of_seq. done.
Qed.

Lemma elem_of_failed_reads cap pos count k :
  k ∈ failed_reads cap pos count ↔ pos ≤ k < pos + count ∧ cap k = None.
Proof.
  unfold failed_reads. rewrite list_elem_of_omap.
  setoid_rewrite elem_of_seq. split.
  - intros (k' & Hk & Heq). destruct (cap k') eqn:E; [done|].
    by injection Heq as ->.
  - intros (Hk & Hc). exists k. by rewrite Hc.
Qed.

End Capture.

(** ** The median of the captured frames *)

Section Median.
Import Background.

Lemma np_stack_same_shape frames h w :
  frames ≠ [] → Forall (λ f : image, has_shape f h w) frames →
  np_stack frames = Some frames.
Proof.
  intros Hne Hall. unfold np_stack.
  destruct frames as [|f0 fs]; [done|].
  assert (forallb (λ f : image, same_shape f0 f) (f0 :: fs) = true) as ->;
    [|done].
  apply forallb_forall. intros f Hin. apply list_elem_of_In in Hin.
  rewrite Forall_forall in Hall.
  apply (same_shape_has_shape f0 f h w); apply Hall; [by left|done].
Qed.

(** Inside the frames, the samples are the pixels of the frames, in
    order. *)
Lemma samples_Forall2 frames h w i j :
  Forall (λ f : image, has_shape f h w) frames → i < h → j < w →
  Forall2 (λ (f : image) p, get f i j = Some p) frames (samples frames i j).
Proof.
  intros Hall Hi Hj. unfold samples.
  induction Hall as [|f fs Hf _ IH]; simpl; [constructor|].
  destruct (has_shape_get f h w i j Hf Hi Hj) as [p Hp].
  rewrite Hp. by constructor.
Qed.

Lemma samples_uint8 frames i j :
  Forall uint8_image frames → Forall uint8_pixel (samples frames i j).
Proof.
  intros Hall. apply Forall_forall. intros p Hp.
  unfold samples in Hp. apply list_elem_of_omap in Hp as (f & Hf & Hg).
  rewrite Forall_forall in Hall. specialize (Hall f Hf).
  unfold uint8_image in Hall. rewrite all_cells_get in Hall. eauto.
Qed.

Lemma chan_uint8 c (p : pixel) : uint8_pixel p → uint8 (chan c p).
Proof. intros (H0 & H1 & H2). by destruct c. Qed.

Lemma chan_px_map {A B} (f : A → B) c (p : px A) :
  chan c (px_map f p) = f (chan c p).
Proof. by destruct c. Qed.

(** *** The median of one sample *)

Lemma sorted_uint8 l : Forall uint8 l → Forall uint8 (merge_sort Z.le l).
Proof. intros H. by rewrite merge_sort_Permutation. Qed.

Lemma sorted_length l : length (merge_sort Z.le l) = length l.
Proof. apply Permutation_length, merge_sort_Permutation. Qed.

Lemma nth_uint8 l k : Forall uint8 l → k < length l → uint8 (nth k l 0%Z).
Proof. intros H Hk. by apply Forall_nth. Qed.

Lemma Qfloor_mean a b :
  Qfloor ((inject_Z a + inject_Z b) / 2)%Q = ((a + b) / 2)%Z.
Proof. simpl. by rewrite !Z.mul_1_r. Qed.

Lemma astype_uint8_mean a b :
  uint8 a → uint8 b →
  astype_uint8 ((inject_Z a + inject_Z b) / 2)%Q = ((a + b) / 2)%Z.
Proof.
  unfold uint8, astype_uint8. intros Ha Hb. simpl. rewrite !Z.mul_1_r.
  rewrite Z.quot_div_nonneg by lia.
  apply Z.mod_small. Z.div_mod_to_equations. lia.
Qed.

Lemma astype_uint8_Z a : uint8 a → astype_uint8 (inject_Z a) = a.
Proof.
  unfold uint8, astype_uint8. intros Ha. simpl.
  rewrite Z.quot_1_r. apply Z.mod_small. lia.
Qed.

(** The stored value is the median with its fraction dropped. *)
Lemma astype_np_median l :
  l ≠ [] → Forall uint8 l →
  astype_uint8 (np_median l) = Qfloor (np_median l) ∧
  uint8 (Qfloor (np_median l)).
Proof.
  intros Hne Hl. unfold np_median.
  pose proof (sorted_uint8 l Hl) as Hs.
  assert (0 < length (merge_sort Z.le l)) as Hn.
  { rewrite sorted_length. destruct l; [done|simpl; lia]. }
  set (s := merge_sort Z.le l) in *. set (n := length s) in *.
  pose proof (Nat.div_mod_eq n 2) as Hdiv.
  pose proof (Nat.mod_upper_bound n 2) as Hmod.
  destruct (Nat.odd n).
  - pose proof (nth_uint8 s (Nat.div n 2) Hs) as Ha.
    rewrite astype_uint8_Z, Qfloor_Z by (apply Ha; lia).
    split; [done|apply Ha; lia].
  - pose proof (nth_uint8 s (Nat.div n 2 - 1) Hs) as Ha.
    pose proof (nth_uint8 s (Nat.div n 2) Hs) as Hb.
    rewrite astype_uint8_mean, Qfloor_mean by (apply Ha || apply Hb; lia).
    split; [done|].
    assert (uint8 (nth (Nat.div n 2 - 1) s 0%Z)) as Ha' by (apply Ha; lia).
    assert (uint8 (nth (Nat.div n 2) s 0%Z)) as Hb' by (apply Hb; lia).
    unfold uint8 in *. Z.div_mod_to_equations. lia.
Qed.

(** With an odd number of values the median is one of them. *)
Lemma np_median_odd l :
  Nat.odd (length l) = true →
  np_median l = inject_Z (Qfloor (np_median l)).
Proof.
  intros Hodd. unfold np_median.
  rewrite sorted_length, Hodd. by rewrite Qfloor_Z.
Qed.

(** *** One outlier among equal values *)

Lemma nth_replicate_lt (v d : Z) n k : k < n → nth k (replicate n v) d = v.
Proof.
  revert k. induction n as [|n IH]; intros k Hk; [lia|].
  destruct k as [|k]; simpl; [done|]. apply IH. lia.
Qed.

Lemma StronglySorted_replicate n (v : Z) :
  StronglySorted Z.le (replicate n v).
Proof.
  induction n as [|n IH]; simpl; constructor; [done|].
  by apply Forall_replicate.
Qed.

(** The sorted values: the outlier first or last. *)
Lemma sorted_outlier l1 l2 v x :
  Forall (eq v) l1 → Forall (eq v) l2 →
  merge_sort Z.le (l1 ++ x :: l2) =
    if decide (x ≤ v)%Z
    then x :: replicate (length l1 + length l2) v
    else replicate (length l1 + length l2) v ++ [x].
Proof.
  intros H1 H2.
  assert (l1 = replicate (length l1) v) as E1
    by (symmetry; by apply replicate_as_Forall_2).
  assert (l2 = replicate (length l2) v) as E2
    by (symmetry; by apply replicate_as_Forall_2).
  assert (l1 ++ x :: l2 ≡ₚ x :: replicate (length l1 + length l2) v) as Hp.
  { rewrite replicate_add, <-E1, <-E2. symmetry. apply Permutation_middle. }
  apply (StronglySorted_unique Z.le).
  - apply StronglySorted_merge_sort; apply _.
  - case_decide as Hd.
    + constructor; [apply StronglySorted_replicate|].
      by apply Forall_replicate.
    + apply StronglySorted_app_2.
      * intros y1 y2 Hy1 Hy2. apply elem_of_replicate in Hy1 as [-> _].
        apply list_elem_of_singleton in Hy2 as ->. lia.
      * apply StronglySorted_replicate.
      * repeat constructor.
  - rewrite merge_sort_Permutation, Hp. case_decide; [done|].
    by rewrite Permutation_app_comm.
Qed.

(** With at least three values, all equal but one, both middle elements
    of the sorted values are the common value. *)
Lemma np_median_outlier l1 l2 v x :
  Forall (eq v) l1 → Forall (eq v) l2 → 3 ≤ length (l1 ++ x :: l2) →
  Qfloor (np_median (l1 ++ x :: l2)) = v ∧
  (np_median (l1 ++ x :: l2) == inject_Z v)%Q.
Proof.
  intros H1 H2 Hlen. unfold np_median.
  rewrite sorted_length. rewrite (sorted_outlier l1 l2 v x H1 H2).
  rewrite length_app in *. cbn [length] in *.
  set (n := length l1 + S (length l2)) in *.
  set (m := length l1 + length l2).
  assert (n = S m) as Hn by (unfold n, m; lia).
  pose proof (Nat.div_mod_eq n 2) as Hdiv.
  pose proof (Nat.mod_upper_bound n 2) as Hmod.
  assert (Nat.odd n = false → 4 ≤ n) as Heven.
  { intros Ho. destruct (decide (n = 3)) as [E|]; [|lia].
    rewrite E in Ho. done. }
  assert (∀ k, 1 ≤ k → k < n - 1 →
    nth k (if decide (x ≤ v)%Z then x :: replicate m v
           else replicate m v ++ [x]) 0%Z = v) as Hnth.
  { intros k Hk1 Hk2. case_decide.
    - destruct k as [|k]; [lia|]. simpl. apply nth_replicate_lt. lia.
    - rewrite app_nth1 by (rewrite length_replicate; lia).
      apply nth_replicate_lt. lia. }
  destruct (Nat.odd n) eqn:Hodd.
  - rewrite Hnth by lia. by rewrite Qfloor_Z.
  - specialize (Heven eq_refl).
    rewrite !Hnth by lia. rewrite Qfloor_mean. split.
    + Z.div_mod_to_equations. lia.
    + unfold Qeq. simpl. lia.
Qed.

(** *** The background *)

Lemma median_background_spec frames h w :
  frames ≠ [] → Forall (λ f : image, has_shape f h w) frames →
  ∃ out, median_background frames = Some out ∧ has_shape out h w ∧
    ∀ i j, i < h → j < w →
      ∃ p, get out i j = Some p ∧
        ∀ c, chan c p = astype_uint8 (np_median (chan c <$> samples frames i j)).
Proof.
  intros Hne Hall. unfold median_background.
  rewrite (np_stack_same_shape frames h w) by done. simpl.
  eexists. split; [done|].
  destruct frames as [|f0 fs]; [done|].
  assert (has_shape f0 h w) as Hf0 by by inversion Hall.
  split.
  - by apply has_shape_mmap, has_shape_mimap.
  - intros i j Hi Hj. rewrite get_mmap. unfold np_median_axis0.
    rewrite get_mimap.
    destruct (has_shape_get f0 h w i j Hf0 Hi Hj) as [p0 Hp0].
    rewrite Hp0. simpl. eexists. split; [done|].
    by intros [].
Qed.

End Median.

(** ** The properties of the specification *)

Section Claims.
Import Cloak Background.

(** *** Segmentation *)

Lemma raw_mask_set hsv i j p :
  get hsv i j = Some p → cloak_coloured p →
  get (raw_mask hsv) i j = Some 255%Z.
Proof.
  intros Hg Hc. rewrite get_raw_mask, Hg. simpl.
  apply cloak_coloured_bounds in Hc. by rewrite Hc.
Qed.

Lemma raw_mask_unset hsv i j p :
  get hsv i j = Some p → ¬ cloak_coloured p →
  get (raw_mask hsv) i j = Some 0%Z.
Proof.
  intros Hg Hc. rewrite get_raw_mask, Hg. simpl.
  rewrite cloak_coloured_bounds in Hc.
  by destruct (in_bounds lower_red1 upper_red1 p
               || in_bounds lower_red2 upper_red2 p
               || in_bounds lower_orange upper_orange p).
Qed.



(** C10: every cell of the mask [build_red_mask] returns is 0 or 255,
    and so is every cell after each stage: the three interval masks,
    their OR, the erosions, the opening and the last dilation. *)
Theorem build_red_mask_binary (hsv : image) :
  binary (inRange hsv lower_red1 upper_red1) ∧
  binary (inRange hsv lower_red2 upper_red2) ∧
  binary (inRange hsv lower_orange upper_orange) ∧
  binary (raw_mask hsv) ∧
  binary (erode (raw_mask hsv) kernel 2) ∧
  binary (morphologyEx_OPEN (raw_mask hsv) kernel 2) ∧
  binary (build_red_mask hsv).
Proof.
  split_and!; try apply binary_inRange.
  - apply binary_raw_mask.
  - apply binary_erode, binary_raw_mask.
  - apply (binary_opened_mask hsv).
  - apply binary_build_red_mask.
Qed.

(** C9, as stated, fails: the pixel with hue 10, saturation 200 and
    value 200 lies in the first red interval and in the orange one. *)
Lemma ranges_share_hue_10 :
  ¬ ranges_disjoint_at (Px 10 200 200)%Z.
Proof.
  intros H.
  apply (H (lower_red1, upper_red1) (lower_orange, upper_orange)).
  - repeat constructor.
  - repeat constructor.
  - intros [=].
  - unfold within. simpl. lia.
Qed.

(** C9, amended: two distinct configured intervals share a pixel exactly
    when they are the first red interval and the orange one and the pixel
    has hue 10, saturation in 120..255 and value in 70..255; the second
    red interval (hue 170..180) is disjoint from both others. *)
Theorem ranges_overlap_only_at_hue_10 (p : pixel) (r1 r2 : pixel * pixel) :
  r1 ∈ color_ranges → r2 ∈ color_ranges → r1 ≠ r2 →
  (within r1.1 r1.2 p ∧ within r2.1 r2.2 p) ↔
    ((r1 = (lower_red1, upper_red1) ∧ r2 = (lower_orange, upper_orange)) ∨
     (r1 = (lower_orange, upper_orange) ∧ r2 = (lower_red1, upper_red1))) ∧
    (ch0 p = 10 ∧ 120 ≤ ch1 p ≤ 255 ∧ 70 ≤ ch2 p ≤ 255)%Z.
Proof.
  unfold color_ranges. rewrite !elem_of_cons, !elem_of_nil.
  intros [-> | [-> | [-> | []]]] [-> | [-> | [-> | []]]] Hne;
    try done; unfold within; simpl; split.
  all: try (intros [[[? ?]|[? ?]] ?]; simplify_eq; simpl in *; lia).
  all: intros [? ?];
    first [lia | split; [first [by left | by right] | lia]].
Qed.

Lemma ranges_overlap_only_at_hue_10_witness :
  (within lower_red1 upper_red1 (Px 10 200 200)%Z ∧
   within lower_orange upper_orange (Px 10 200 200)%Z).
Proof.
  apply (ranges_overlap_only_at_hue_10 (Px 10 200 200)%Z
           (lower_red1, upper_red1) (lower_orange, upper_orange)).
  - repeat constructor.
  - repeat constructor.
  - intros [=].
  - split; [left; split; reflexivity|]. simpl. lia.
Defined.

(** *** The block test *)

Lemma has_shape_replicate {A} (x : A) h w :
  0 < h → has_shape (replicate h (replicate w x)) h w.
Proof.
  intros Hh. unfold has_shape, rows, cols. split_and!.
  - by rewrite length_replicate.
  - destruct h; [lia|]. simpl. by rewrite length_replicate.
  - apply Forall_replicate. by rewrite length_replicate.
Qed.

Lemma get_replicate {A} (x y : A) h w i j :
  get (replicate h (replicate w x)) i j = Some y → y = x.
Proof.
  unfold get. intros Hg.
  destruct (replicate h (replicate w x) !! i) as [r|] eqn:Hr; [|done].
  apply lookup_replicate in Hr as [-> _]. simpl in Hg.
  by apply lookup_replicate in Hg as [-> _].
Qed.

(** The sample frames do hold a solid block. *)
Lemma solid_block_frame n r0 c0 bh bw :
  0 < n → r0 + bh ≤ n → c0 + bw ≤ n →
  solid_block (Samples.block_frame n r0 c0 bh bw) n n r0 c0 bh bw.
Proof.
  intros Hn Hr Hc. unfold solid_block, Samples.block_frame. split_and!.
  - by apply has_shape_mimap, has_shape_replicate.
  - done.
  - done.
  - exists lower_red1, upper_red1. split; [repeat constructor|].
    intros i j p. rewrite get_mimap.
    destruct (get (replicate n (replicate n Samples.green_hsv)) i j);
      [|done].
    simpl. intros [= <-]. case_bool_decide as Hb; split.
    + intros _. unfold strictly_within. simpl. lia.
    + intros Hnb. by destruct Hnb.
    + intros Hib. by destruct Hb.
    + intros _. rewrite cloak_coloured_bounds. done.
Qed.

(** C5, as stated, fails: a block of 3 by 3 red pixels in the middle of
    a frame of 7 by 7 has one interior pixel, at (3, 3); the two erosions
    of the opening remove the whole block and the mask is unset there. *)
Lemma small_block_is_erased :
  ¬ (solid_block (Samples.block_frame 7 2 2 3 3) 7 7 2 2 3 3 →
     ∀ i j, block_interior 2 2 3 3 i j →
       get (build_red_mask (Samples.block_frame 7 2 2 3 3)) i j
       = Some 255%Z).
Proof.
  intros H.
  assert (get (build_red_mask (Samples.block_frame 7 2 2 3 3)) 3 3
          = Some 255%Z) as Hset.
  { apply H; [apply solid_block_frame; lia|]. unfold block_interior. lia. }
  vm_compute in Hset. discriminate.
Qed.

(** C5, amended: when the solid block is at least 5 pixels high and 5
    pixels wide, the mask [build_red_mask] returns is set on the whole
    block, hence on its interior, and on the ring of pixels around it as
    far as the frame goes. *)
Theorem block_of_5x5_survives (hsv : image) (h w r0 c0 bh bw : nat) :
  solid_block hsv h w r0 c0 bh bw → 5 ≤ bh → 5 ≤ bw →
  ∀ i j, i < h → j < w →
    r0 ≤ i + 1 → i ≤ r0 + bh → c0 ≤ j + 1 → j ≤ c0 + bw →
    get (build_red_mask hsv) i j = Some 255%Z.
Proof.
  intros (Hs & Hh & Hw & lo & hi & Hin & Hpix) Hbh Hbw.
  apply (cleaned_block (raw_mask hsv) h w r0 c0 bh bw); try done.
  - apply binary_raw_mask.
  - by apply has_shape_raw_mask.
  - intros i j Hi Hj.
    destruct (has_shape_get hsv h w i j Hs) as [p Hp]; [lia..|].
    apply (raw_mask_set hsv i j p Hp).
    exists lo, hi. split; [done|].
    destruct (Hpix i j p Hp) as [Hblock _].
    destruct Hblock as (H0 & H1 & H2); [unfold in_block; lia|].
    unfold within. lia.
Qed.

Lemma block_of_5x5_survives_witness :
  get (build_red_mask (Samples.block_frame 9 2 2 5 5)) 2 2 = Some 255%Z ∧
  get (build_red_mask (Samples.block_frame 9 2 2 5 5)) 1 7 = Some 255%Z.
Proof.
  split.
  - apply (block_of_5x5_survives (Samples.block_frame 9 2 2 5 5)
             9 9 2 2 5 5); [apply solid_block_frame; lia|lia..].
  - apply (block_of_5x5_survives (Samples.block_frame 9 2 2 5 5)
             9 9 2 2 5 5); [apply solid_block_frame; lia|lia..].
Defined.

(** *** Compositing *)

Lemma land_lnot_binary v :
  is_binary v →
  (v = 0%Z ∧ Z.land (Z.lnot v) 255 = 255%Z) ∨
  (v = 255%Z ∧ Z.land (Z.lnot v) 255 = 0%Z).
Proof. intros [-> | ->]; [left|right]; done. Qed.

(** C1: with a frame, a binary mask and a background of one size, the
    composite exists, has that size, and at every position is the
    background pixel where the mask is set (255) and the frame pixel
    where it is unset (0): each pixel is copied from one of the two. *)
Theorem composite_selects (frame bg : image) (cloak_mask : mask) (h w : nat) :
  has_shape frame h w → has_shape bg h w → has_shape cloak_mask h w →
  binary cloak_mask → uint8_image frame → uint8_image bg →
  ∃ final, composite frame bg cloak_mask = Some final ∧
    has_shape final h w ∧
    ∀ i j, i < h → j < w →
      ∃ v, get cloak_mask i j = Some v ∧
        (v = 255%Z ∧ get final i j = get bg i j ∨
         v = 0%Z ∧ get final i j = get frame i j).
Proof.
  intros Hf Hb Hm Hbin Huf Hub.
  destruct (composite_parts frame bg cloak_mask h w Hf Hb Hm)
    as (bp & cp & final & _ & _ & Hfin & _ & _ & Hsf & Hcell).
  exists final. split; [done|]. split; [done|].
  intros i j Hi Hj.
  destruct (Hcell i j) as (Hbp & Hcp & Hout).
  destruct (has_shape_get frame h w i j Hf Hi Hj) as [pf Hpf].
  destruct (has_shape_get bg h w i j Hb Hi Hj) as [pb Hpb].
  destruct (has_shape_get cloak_mask h w i j Hm Hi Hj) as [v Hv].
  unfold binary, uint8_image in *. rewrite all_cells_get in Hbin.
  rewrite all_cells_get in Huf. rewrite all_cells_get in Hub.
  pose proof (Huf _ _ _ Hpf) as Hupf. pose proof (Hub _ _ _ Hpb) as Hupb.
  exists v. split; [done|].
  rewrite Hout, Hbp, Hcp, Hpf, Hpb, Hv.
  destruct (land_lnot_binary v (Hbin _ _ _ Hv)) as [[-> ->] | [-> ->]].
  - right. split; [done|]. simpl. by rewrite add_zero_l.
  - left. split; [done|]. simpl. by rewrite add_zero_r.
Qed.

Lemma composite_selects_witness :
  ∃ final, composite Samples.frame12 Samples.bg12 Samples.mask12
           = Some final ∧
    get final 0 0 = get Samples.frame12 0 0 ∧
    get final 0 1 = get Samples.bg12 0 1.
Proof.
  destruct (composite_selects Samples.frame12 Samples.bg12 Samples.mask12
              1 2) as (final & Hfin & _ & Hcell).
  - repeat constructor.
  - repeat constructor.
  - repeat constructor.
  - repeat (apply List.Forall_cons || apply List.Forall_nil); unfold is_binary; auto.
  - repeat (apply List.Forall_cons || apply List.Forall_nil);
      unfold uint8_pixel, uint8; simpl; lia.
  - repeat (apply List.Forall_cons || apply List.Forall_nil);
      unfold uint8_pixel, uint8; simpl; lia.
  - exists final. split; [done|]. split.
    + destruct (Hcell 0 0) as (v & Hv & [[-> _]|[_ H]]); [lia|lia|done|done].
    + destruct (Hcell 0 1) as (v & Hv & [[_ H]|[-> _]]); [lia|lia|done|done].
Defined.

(** C4: with a binary mask, at every position the background part or
    the current part is the zero pixel, so on every channel the sum of
    the two stays within 0..255 and the saturating addition returns the
    plain sum. *)
Theorem composite_parts_disjoint (frame bg : image) (cloak_mask : mask)
    (h w : nat) :
  has_shape frame h w → has_shape bg h w → has_shape cloak_mask h w →
  binary cloak_mask → uint8_image frame → uint8_image bg →
  ∃ bp cp, background_part bg cloak_mask = Some bp ∧
    current_part frame cloak_mask = Some cp ∧
    ∀ i j, i < h → j < w →
      ∃ p q, get bp i j = Some p ∧ get cp i j = Some q ∧
        (p = zero_pixel ∨ q = zero_pixel) ∧
        ∀ c, (0 ≤ chan c p + chan c q ≤ 255)%Z ∧
             saturate_u8 (chan c p + chan c q) = (chan c p + chan c q)%Z.
Proof.
  intros Hf Hb Hm Hbin Huf Hub.
  destruct (composite_parts frame bg cloak_mask h w Hf Hb Hm)
    as (bp & cp & final & Hbp & Hcp & _ & _ & _ & _ & Hcell).
  exists bp, cp. split; [done|]. split; [done|].
  intros i j Hi Hj.
  destruct (Hcell i j) as (Hgb & Hgc & _).
  destruct (has_shape_get frame h w i j Hf Hi Hj) as [pf Hpf].
  destruct (has_shape_get bg h w i j Hb Hi Hj) as [pb Hpb].
  destruct (has_shape_get cloak_mask h w i j Hm Hi Hj) as [v Hv].
  unfold binary, uint8_image in *. rewrite all_cells_get in Hbin.
  rewrite all_cells_get in Huf. rewrite all_cells_get in Hub.
  pose proof (Huf _ _ _ Hpf) as Hupf. pose proof (Hub _ _ _ Hpb) as Hupb.
  rewrite Hgb, Hgc, Hpf, Hpb, Hv.
  destruct (land_lnot_binary v (Hbin _ _ _ Hv)) as [[-> ->] | [-> ->]];
    simpl; do 2 eexists; (split; [done|]); (split; [done|]).
  - split; [by left|]. intros c.
    pose proof (chan_uint8 c pf Hupf) as Hc. unfold uint8 in Hc.
    assert (chan c zero_pixel = 0%Z) as -> by by destruct c.
    split; [lia|]. apply saturate_u8_id. unfold uint8. lia.
  - split; [by right|]. intros c.
    pose proof (chan_uint8 c pb Hupb) as Hc. unfold uint8 in Hc.
    assert (chan c zero_pixel = 0%Z) as -> by by destruct c.
    split; [lia|]. apply saturate_u8_id. unfold uint8. lia.
Qed.

Lemma composite_parts_disjoint_witness :
  ∃ bp cp, background_part Samples.bg12 Samples.mask12 = Some bp ∧
    current_part Samples.frame12 Samples.mask12 = Some cp ∧
    get bp 0 0 = Some zero_pixel ∧ get cp 0 1 = Some zero_pixel.
Proof.
  destruct (composite_parts_disjoint Samples.frame12 Samples.bg12
              Samples.mask12 1 2) as (bp & cp & Hbp & Hcp & _).
  - repeat constructor.
  - repeat constructor.
  - repeat constructor.
  - repeat (apply List.Forall_cons || apply List.Forall_nil); unfold is_binary; auto.
  - repeat (apply List.Forall_cons || apply List.Forall_nil);
      unfold uint8_pixel, uint8; simpl; lia.
  - repeat (apply List.Forall_cons || apply List.Forall_nil);
      unfold uint8_pixel, uint8; simpl; lia.
  - exists bp, cp. split; [done|]. split; [done|].
    vm_compute in Hbp, Hcp.
    injection Hbp as <-. injection Hcp as <-. split; reflexivity.
Defined.

(** *** The session *)

(** C8: in a session whose frames all have the size [(h, w)], the
    background is the image loaded or the one resize of it to the frame
    size with area interpolation; [resize] is called at most once, on
    the background, exactly when the loaded background has another size
    and a frame arrives; every frame shown keeps the frame size. *)
Theorem background_resized_at_most_once
    (cvtColor_BGR2HSV : image → image)
    (resize : image → nat * nat → interpolation → image)
    (bg0 : image) (h0 w0 h w : nat) (reads : list (option image)) :
  (∀ src h w, has_shape src h w → has_shape (cvtColor_BGR2HSV src) h w) →
  (∀ src h w interp, 0 < h → 0 < w →
     has_shape (resize src (w, h) interp) h w) →
  has_shape bg0 h0 w0 → 0 < h → 0 < w →
  Forall (λ r : option image, ∀ f, r = Some f → has_shape f h w) reads →
  ∃ s, run cvtColor_BGR2HSV resize (Session bg0 [] []) reads = Some s ∧
    length (resized s) ≤ 1 ∧
    (bg s = bg0 ∧ resized s = [] ∨
     bg s = resize bg0 (w, h) INTER_AREA ∧
     resized s = [(w, h, INTER_AREA)] ∧ (h0, w0) ≠ (h, w)) ∧
    ((h0, w0) ≠ (h, w) → Exists is_Some reads →
       resized s = [(w, h, INTER_AREA)]) ∧
    Forall (λ out : image, has_shape out h w) (shown s).
Proof.
  intros Hcvt Hres Hbg0 Hh Hw Hreads.
  destruct (run_inv cvtColor_BGR2HSV resize Hcvt Hres bg0 h0 w0 h w Hbg0
              (conj Hh Hw) reads (Session bg0 [] []))
    as (s & Hrun & [Hfit Hshown] & Hshape); [|done|].
  { split; [by left|]. simpl. constructor. }
  exists s. split; [done|].
  rewrite <-(has_shape_unique _ _ _ Hbg0).
  destruct Hfit as [(Hbg & Hr) | (Hbg & Hr & Hne)].
  - rewrite Hr. simpl. split_and!; [lia|by left| |done].
    intros Hne Hex. exfalso. apply Hne.
    rewrite <-Hbg. apply has_shape_unique, Hshape. by left.
  - rewrite Hr. simpl. split_and!; [lia|by right|done|done].
Qed.

Lemma has_shape_resize_sample src h w interp :
  0 < h → 0 < w → has_shape (Samples.resize_sample src (w, h) interp) h w.
Proof. intros Hh _. by apply has_shape_replicate. Qed.

Lemma background_resized_at_most_once_witness :
  ∃ s, run Samples.cvt_sample Samples.resize_sample
         (Session Samples.bg11 [] [])
         [Some Samples.cloak22; None; Some Samples.grey22] = Some s ∧
    resized s = [(2, 2, INTER_AREA)] ∧
    bg s = Samples.grey22.
Proof.
  destruct (background_resized_at_most_once
              Samples.cvt_sample Samples.resize_sample Samples.bg11
              1 1 2 2 [Some Samples.cloak22; None; Some Samples.grey22])
    as (s & Hrun & _ & Hfit & Hres & _).
  - intros src h w. apply has_shape_mmap.
  - apply has_shape_resize_sample.
  - repeat constructor.
  - lia.
  - lia.
  - repeat (apply List.Forall_cons || apply List.Forall_nil);
      intros f [= <-]; repeat constructor.
  - exists s. split; [done|].
    assert (resized s = [(2, 2, INTER_AREA)]) as Hr.
    { apply Hres; [intros [=]|]. apply Exists_cons_hd. by eexists. }
    split; [done|].
    destruct Hfit as [[_ Hnil]|(Hbg & _ & _)]; [congruence|].
    rewrite Hbg. reflexivity.
Defined.

(** *** Background acquisition *)

(** C2, as stated, fails: from two captures whose values are 1 and 2
    the stored value is 1, and the median of 1 and 2 is 3/2. *)
Lemma median_of_two_is_truncated :
  ¬ exact_median Samples.two_shots.
Proof.
  intros H.
  specialize (H [[Px 1 1 1]]%Z eq_refl 0 0 (Px 1 1 1)%Z C0 eq_refl).
  vm_compute in H. discriminate.
Qed.

(** C2, amended: for captured frames of one size, the stored frame has
    at each position and channel the median of the captured values with
    its fraction dropped; this is the median itself when the number of
    frames is odd (an even number can give a median ending in one half);
    and with at least three frames that agree at a position and channel
    except one, the stored value is the value of the majority. *)
Theorem background_is_floored_median (frames : list image) (h w : nat) :
  frames ≠ [] → Forall (λ f : image, has_shape f h w) frames →
  Forall uint8_image frames →
  ∃ out, median_background frames = Some out ∧ has_shape out h w ∧
    ∀ i j c, i < h → j < w →
      ∃ p vals, get out i j = Some p ∧
        Forall2 (λ (f : image) v, chan c <$> get f i j = Some v)
                frames vals ∧
        chan c p = Qfloor (np_median vals) ∧
        (Nat.odd (length frames) = true →
           (inject_Z (chan c p) == np_median vals)%Q) ∧
        (∀ l1 x l2 v, vals = l1 ++ x :: l2 →
           Forall (eq v) l1 → Forall (eq v) l2 → 3 ≤ length frames →
           chan c p = v).
Proof.
  intros Hne Hall Hu8.
  destruct (median_background_spec frames h w Hne Hall)
    as (out & Hout & Hs & Hcell).
  exists out. split; [done|]. split; [done|].
  intros i j c Hi Hj.
  destruct (Hcell i j Hi Hj) as (p & Hp & Hchan).
  pose proof (samples_Forall2 frames h w i j Hall Hi Hj) as Hsam.
  specialize (Hchan c).
  set (vals := chan c <$> samples frames i j) in *.
  assert (length vals = length frames) as Hlen.
  { unfold vals. rewrite length_fmap. symmetry.
    by eapply Forall2_length. }
  assert (Forall uint8 vals) as Hvals.
  { unfold vals. apply Forall_fmap.
    eapply Forall_impl; [by apply samples_uint8|].
    intros q Hq. by apply chan_uint8. }
  assert (vals ≠ []) as Hvne.
  { intros E. rewrite E in Hlen. destruct frames; [done|]. simpl in Hlen. lia. }
  destruct (astype_np_median vals Hvne Hvals) as [Hfloor _].
  exists p, vals. split; [done|]. split_and!.
  - unfold vals. apply Forall2_fmap_r.
    eapply Forall2_impl; [exact Hsam|]. intros f q Hq. simpl. by rewrite Hq.
  - by rewrite Hchan, <-Hfloor.
  - intros Hodd. rewrite Hchan, Hfloor.
    rewrite <-Hlen in Hodd. by rewrite <-(np_median_odd vals Hodd).
  - intros l1 x l2 v Heq H1 H2 H3.
    rewrite Hchan, Hfloor, Heq.
    apply np_median_outlier; [done|done|]. rewrite <-Heq. lia.
Qed.

Lemma background_is_floored_median_witness :
  ∃ out p, median_background Samples.three_shots = Some out ∧
    get out 0 0 = Some p ∧ ch0 p = 7%Z.
Proof.
  destruct (background_is_floored_median Samples.three_shots 1 1)
    as (out & Hout & _ & Hcell).
  - done.
  - repeat (apply List.Forall_cons || apply List.Forall_nil);
      repeat constructor.
  - repeat (apply List.Forall_cons || apply List.Forall_nil);
      unfold uint8_pixel, uint8; simpl; lia.
  - destruct (Hcell 0 0 C0) as (p & vals & Hp & Hvals & _ & _ & Hmaj);
      [lia|lia|].
    exists out, p. split; [done|]. split; [done|].
    apply (Hmaj [7%Z] 200%Z [7%Z] 7%Z).
    + unfold Samples.three_shots in Hvals.
      repeat match goal with
             | H : Forall2 _ (_ :: _) _ |- _ => inversion H; clear H; subst
             | H : Forall2 _ [] _ |- _ => inversion H; clear H; subst
             | H : _ <$> get _ 0 0 = Some _ |- _ =>
                 vm_compute in H; injection H as <-
             end.
      reflexivity.
    + repeat constructor.
    + repeat constructor.
    + simpl. lia.
Defined.

(** C6: when the capture loop keeps no frame, the handler prints the
    failure message and returns to the preview loop; nothing is written
    and nothing is shown. *)
Theorem no_frames_no_background (abspath : string → string)
    (cap : camera) (pos : nat) (args_frames : Z) (args_output : string) :
  (capture_loop cap pos (Z.to_nat args_frames) []).1 = [] →
  on_space abspath cap pos args_frames args_output =
    ([Print "Capturing background... please keep the scene still.";
      Print "Failed to capture frames. Try again."],
     Continue, pos + Z.to_nat args_frames) ∧
  (∀ path img,
     ImWrite path img ∉
       (on_space abspath cap pos args_frames args_output).1.1) ∧
  (∀ window img,
     ImShow window img ∉
       (on_space abspath cap pos args_frames args_output).1.1).
Proof.
  intros Hnone. unfold on_space.
  rewrite capture_loop_spec in *. simpl in *. rewrite Hnone. simpl.
  split; [done|]. split; intros ? ? Hin;
    repeat (apply elem_of_cons in Hin as [[=]|Hin]);
    by apply elem_of_nil in Hin.
Qed.

Lemma no_frames_no_background_witness :
  on_space Samples.abspath Samples.dead 0 60 "background.jpg" =
    ([Print "Capturing background... please keep the scene still.";
      Print "Failed to capture frames. Try again."], Continue, 60).
Proof.
  apply (no_frames_no_background Samples.abspath Samples.dead 0 60
           "background.jpg").
  vm_compute. reflexivity.
Defined.

(** C7: the capture loop makes the requested number of reads whatever
    they return; the frames it keeps are the mirrored frames of the reads
    that delivered one, in order; a failed read adds nothing and is not
    made up for, so the frames kept and the failed reads add up to the
    requested number, and one failed read leaves fewer frames than
    requested; these frames are the ones the median is taken of, and the
    line printed after the image is written names the absolute path of
    the output file. *)
Theorem failed_reads_are_skipped (abspath : string → string)
    (cap : camera) (pos count : nat) (args_output : string) :
  let frames := (capture_loop cap pos count []).1 in
  (capture_loop cap pos count []).2 = pos + count ∧
  frames = (λ f : image, flip f 1) <$> delivered cap pos count ∧
  (∀ f, f ∈ delivered cap pos count ↔
        ∃ k, pos ≤ k < pos + count ∧ cap k = Some f) ∧
  (∀ k, k ∈ failed_reads cap pos count ↔
        pos ≤ k < pos + count ∧ cap k = None) ∧
  length frames + length (failed_reads cap pos count) = count ∧
  length frames ≤ count ∧
  ((∃ k, pos ≤ k < pos + count ∧ cap k = None) → length frames < count) ∧
  (∀ median, frames ≠ [] → median_background frames = Some median →
     on_space abspath cap pos (Z.of_nat count) args_output =
       ([Print "Capturing background... please keep the scene still.";
         ImWrite args_output median;
         Print ("Saved background to " +:+ abspath args_output);
         ImShow "Saved Background" median], Break, pos + count)).
Proof.
  intros frames. unfold frames, on_space.
  rewrite Nat2Z.id, capture_loop_spec. simpl.
  pose proof (delivered_failed_length cap pos count) as Hlen.
  split_and!; try done.
  - apply elem_of_delivered.
  - apply elem_of_failed_reads.
  - by rewrite length_fmap.
  - rewrite length_fmap. lia.
  - intros (k & Hk & Hnone). rewrite length_fmap.
    assert (k ∈ failed_reads cap pos count) as Hin
      by by apply elem_of_failed_reads.
    destruct (failed_reads cap pos count); [by apply elem_of_nil in Hin|].
    simpl in Hlen. lia.
  - intros median Hne Hmed. rewrite Hmed.
    by destruct ((λ f : image, flip f 1) <$> delivered cap pos count).
Qed.

Lemma failed_reads_are_skipped_witness :
  length (capture_loop Samples.flaky 0 3 []).1 < 3 ∧
  (capture_loop Samples.flaky 0 3 []).1 = [Samples.shot 0; Samples.shot 2] ∧
  on_space Samples.abspath Samples.flaky 0 3 "background.jpg" =
    ([Print "Capturing background... please keep the scene still.";
      ImWrite "background.jpg" (Samples.shot 1);
      Print "Saved background to /home/cloak/background.jpg";
      ImShow "Saved Background" (Samples.shot 1)], Break, 3).
Proof.
  pose proof (failed_reads_are_skipped Samples.abspath Samples.flaky 0 3
                "background.jpg")
    as (_ & Hframes & _ & _ & _ & _ & Hless & Hspace).
  split_and!.
  - apply Hless. exists 1. split; [lia|reflexivity].
  - rewrite Hframes. reflexivity.
  - apply (Hspace (Samples.shot 1)).
    + vm_compute. intros [=].
    + vm_compute. reflexivity.
Defined.

(** *** Worked examples *)

(** The raw mask of a 3 by 3 block in a 7 by 7 frame, on a row through
    the block. *)
Example raw_mask_block_row :
  raw_mask (Samples.block_frame 7 2 2 3 3) !! 3
  = Some [0; 0; 255; 255; 255; 0; 0]%Z.
Proof. reflexivity. Qed.

(** Positions outside the frame do not erode: a 3 by 3 block in the
    corner of the frame survives the opening and grows by one ring. *)
Example corner_block_survives :
  build_red_mask (Samples.block_frame 7 0 0 3 3) !! 3
  = Some [255; 255; 255; 255; 0; 0; 0]%Z.
Proof. vm_compute. reflexivity. Qed.

Example np_median_even : np_median [1; 2]%Z = (3 # 2)%Q.
Proof. reflexivity. Qed.

Example np_median_odd_outlier : np_median [5; 1; 200]%Z = inject_Z 5.
Proof. reflexivity. Qed.

(** A mask cell that is neither 0 nor 255 selects both parts, and the
    sum blends them. *)
Example composite_blends_on_grey_mask :
  composite Samples.frame12 Samples.bg12 [[0; 100]]%Z
  = Some [[Px 1 2 3; Px 44 55 66]]%Z.
Proof. reflexivity. Qed.

(** A frame that is red all over is replaced by the background. *)
Example red_frame_vanishes :
  shown <$> run Samples.cvt_sample Samples.resize_sample
              (Session Samples.grey22 [] [])
              [Some [[Samples.red_bgr; Samples.red_bgr];
                     [Samples.red_bgr; Samples.red_bgr]]]
  = Some [Samples.grey22].
Proof. vm_compute. reflexivity. Qed.
End Claims.

(** ** Iterated erosion and dilation *)

Section Radius.
Import Cloak.

Lemma foldr_min_255 l :
  Forall is_binary l →
  foldr Z.min 255%Z l = 255%Z ↔ Forall (λ v, v = 255%Z) l.
Proof.
  intros Hb. split; [|apply foldr_min_all].
  induction Hb as [|x l Hx Hl IH]; simpl; [constructor|].
  pose proof (foldr_min_binary l Hl) as Hm. unfold is_binary in *.
  intros Hmin. constructor; [lia|]. apply IH. lia.
Qed.

Lemma foldr_max_255 l :
  Forall is_binary l → foldr Z.max 0%Z l = 255%Z ↔ 255%Z ∈ l.
Proof.
  intros Hb. split; [|by apply foldr_max_some].
  induction Hb as [|x l Hx Hl IH]; simpl; [done|].
  pose proof (foldr_max_binary l Hl) as Hm. unfold is_binary in *.
  intros Hmax. destruct Hx as [-> | ->]; [|by left].
  right. apply IH. lia.
Qed.

Section OnePass.
Variables (m : mask) (h w : nat).
Hypothesis m_shape : has_shape m h w.
Hypothesis m_binary : binary m.

Lemma erode1_iff i j :
  i < h → j < w →
  get (erode1 m kernel) i j = Some 255%Z ↔
    ∀ i' j', i' < h → j' < w → close 1 i i' → close 1 j j' →
      get m i' j' = Some 255%Z.
Proof.
  intros Hi Hj. unfold erode1. rewrite get_mimap.
  destruct (has_shape_get m h w i j m_shape Hi Hj) as [x Hx].
  rewrite Hx. simpl. split.
  - intros [= Hmin] i' j' Hi' Hj' [? ?] [? ?].
    apply foldr_min_255 in Hmin; [|by apply window_binary].
    destruct (has_shape_get m h w i' j' m_shape Hi' Hj') as [v Hv].
    rewrite Hv. f_equal. rewrite Forall_forall in Hmin. apply Hmin.
    apply elem_of_window. eauto 10.
  - intros Hall. f_equal. apply foldr_min_all, Forall_forall.
    intros v Hv. apply elem_of_window in Hv as (i' & j' & (?&?&?&?) & Hg).
    destruct (get_has_shape m h w i' j' v m_shape Hg) as [Hi' Hj'].
    rewrite Hall in Hg by (done || by split). congruence.
Qed.

Lemma dilate1_iff i j :
  i < h → j < w →
  get (dilate1 m kernel) i j = Some 255%Z ↔
    ∃ i' j', close 1 i i' ∧ close 1 j j' ∧ get m i' j' = Some 255%Z.
Proof.
  intros Hi Hj. split.
  - unfold dilate1. rewrite get_mimap.
    destruct (has_shape_get m h w i j m_shape Hi Hj) as [x Hx].
    rewrite Hx. simpl. intros [= Hmax].
    apply foldr_max_255 in Hmax; [|by apply window_binary].
    apply elem_of_window in Hmax as (i' & j' & (?&?&?&?) & Hg).
    exists i', j'. by repeat split.
  - intros (i' & j' & [? ?] & [? ?] & Hg).
    apply (dilate1_set m i j i' j'); try done.
    by apply (has_shape_get m h w).
Qed.
End OnePass.

(** After [n] erosions a cell is set exactly when its whole
    neighbourhood of radius [n] inside the array was set. *)
Lemma get_erode (m : mask) (h w n i j : nat) :
  has_shape m h w → binary m → i < h → j < w →
  get (erode m kernel n) i j = Some 255%Z ↔
    ∀ i' j', i' < h → j' < w → close n i i' → close n j j' →
      get m i' j' = Some 255%Z.
Proof.
  intros Hs Hb. revert i j. unfold close.
  induction n as [|n IH]; intros i j Hi Hj.
  - simpl. split.
    + intros Hg i' j' _ _ ? ?.
      by replace i' with i by lia; replace j' with j by lia.
    + intros Hall. apply Hall; lia.
  - change (erode m kernel (S n)) with (erode1 (erode m kernel n) kernel).
    rewrite (erode1_iff _ h w) by
      (done || by apply has_shape_erode || by apply binary_erode).
    unfold close. split.
    + intros Hall i' j' Hi' Hj' ? ?.
      apply (IH (Nat.max (i - 1) (Nat.min (i + 1) i'))
                (Nat.max (j - 1) (Nat.min (j + 1) j'))); try lia.
      apply Hall; lia.
    + intros Hall i1 j1 Hi1 Hj1 ? ?. apply IH; try done.
      intros i' j' Hi' Hj' ? ?. apply Hall; lia.
Qed.

(** X1: [cv2.erode] with the 3 by 3 element and [n] iterations keeps a
    cell set exactly when every cell of the array within [n] rows and
    columns of it is set: positions outside the array do not erode. *)
Theorem erode_radius (m : mask) (h w n i j : nat) :
  has_shape m h w → binary m → i < h → j < w →
  get (erode m kernel n) i j = Some 255%Z ↔
    ∀ i' j', i' < h → j' < w → close n i i' → close n j j' →
      get m i' j' = Some 255%Z.
Proof. apply get_erode. Qed.

Lemma erode_radius_witness :
  get (erode (raw_mask (Samples.block_frame 9 2 2 5 5)) kernel 2) 4 4
  = Some 255%Z.
Proof.
  apply (erode_radius (raw_mask (Samples.block_frame 9 2 2 5 5)) 9 9 2 4 4).
  - apply has_shape_raw_mask, has_shape_mimap, has_shape_replicate. lia.
  - apply binary_raw_mask.
  - lia.
  - lia.
  - intros i' j' Hi Hj [? ?] [? ?].
    apply raw_mask_set with (p := Samples.red_hsv).
    + unfold Samples.block_frame. rewrite get_mimap.
      destruct (has_shape_get (replicate 9 (replicate 9 Samples.green_hsv))
                  9 9 i' j') as [x ->]; [by apply has_shape_replicate; lia|lia|lia|].
      simpl. rewrite bool_decide_eq_true_2; [done|]. unfold in_block. lia.
    + apply cloak_coloured_bounds. reflexivity.
Defined.

(** After [n] dilations a cell is set exactly when a cell of its
    neighbourhood of radius [n] was set. *)
Lemma get_dilate (m : mask) (h w n i j : nat) :
  has_shape m h w → binary m → i < h → j < w →
  get (dilate m kernel n) i j = Some 255%Z ↔
    ∃ i' j', close n i i' ∧ close n j j' ∧ get m i' j' = Some 255%Z.
Proof.
  intros Hs Hb. revert i j. unfold close.
  induction n as [|n IH]; intros i j Hi Hj.
  - simpl. split.
    + intros Hg. exists i, j. split_and!; (lia || done).
    + intros (i' & j' & ? & ? & Hg).
      by replace i with i' by lia; replace j with j' by lia.
  - change (dilate m kernel (S n)) with (dilate1 (dilate m kernel n) kernel).
    rewrite (dilate1_iff _ h w) by
      (done || by apply has_shape_dilate || by apply binary_dilate).
    unfold close. split.
    + intros (i1 & j1 & ? & ? & Hg).
      destruct (get_has_shape _ h w _ _ _ (has_shape_dilate _ _ _ _ _ Hs) Hg)
        as [Hi1 Hj1].
      apply IH in Hg as (i' & j' & ? & ? & Hg); [|done..].
      exists i', j'. split_and!; (lia || done).
    + intros (i' & j' & ? & ? & Hg).
      destruct (get_has_shape _ h w _ _ _ Hs Hg) as [Hi' Hj'].
      exists (Nat.max (i - 1) (Nat.min (i + 1) i')),
             (Nat.max (j - 1) (Nat.min (j + 1) j')).
      split; [lia|]. split; [lia|].
      apply IH; [lia|lia|]. exists i', j'. split_and!; (lia || done).
Qed.

(** X2: [cv2.dilate] with the 3 by 3 element and [n] iterations sets a
    cell exactly when some cell within [n] rows and columns of it is
    set. *)
Theorem dilate_radius (m : mask) (h w n i j : nat) :
  has_shape m h w → binary m → i < h → j < w →
  get (dilate m kernel n) i j = Some 255%Z ↔
    ∃ i' j', close n i i' ∧ close n j j' ∧ get m i' j' = Some 255%Z.
Proof. apply get_dilate. Qed.

Lemma dilate_radius_witness :
  get (dilate [[0; 0; 0; 255]]%Z kernel 2) 0 1 = Some 255%Z ∧
  get (dilate [[0; 0; 0; 255]]%Z kernel 2) 0 0 = Some 0%Z.
Proof.
  split; [|reflexivity].
  apply (dilate_radius [[0; 0; 0; 255]]%Z 1 4 2 0 1).
  - repeat constructor.
  - repeat (apply List.Forall_cons || apply List.Forall_nil);
      unfold is_binary; auto.
  - lia.
  - lia.
  - exists 0, 3. unfold close. split_and!; (lia || reflexivity).
Defined.

End Radius.

(** ** What [build_red_mask] marks *)

Section MaskFacts.
Import Cloak.

Lemma raw_mask_255_iff hsv i j :
  get (raw_mask hsv) i j = Some 255%Z ↔
    ∃ p, get hsv i j = Some p ∧ cloak_coloured p.
Proof.
  rewrite get_raw_mask. split.
  - destruct (get hsv i j) as [p|]; [|done]. simpl. intros [= H].
    exists p. split; [done|]. apply cloak_coloured_bounds.
    by destruct (in_bounds lower_red1 upper_red1 p
                 || in_bounds lower_red2 upper_red2 p
                 || in_bounds lower_orange upper_orange p).
  - intros (p & -> & Hc). simpl.
    apply cloak_coloured_bounds in Hc. by rewrite Hc.
Qed.

Lemma build_red_mask_unfold hsv :
  build_red_mask hsv = dilate (erode (raw_mask hsv) kernel 2) kernel 3.
Proof. reflexivity. Qed.

(** X3: the mask has the size of the frame it is built from. *)
Theorem mask_has_frame_shape (hsv : image) (h w : nat) :
  has_shape hsv h w → has_shape (build_red_mask hsv) h w.
Proof. apply has_shape_build_red_mask. Qed.

Lemma mask_has_frame_shape_witness :
  has_shape (build_red_mask (Samples.block_frame 7 2 2 3 3)) 7 7.
Proof.
  apply (mask_has_frame_shape (Samples.block_frame 7 2 2 3 3) 7 7).
  apply has_shape_mimap, has_shape_replicate. lia.
Defined.

(** The cells the cleaned mask sets. *)
Lemma get_build_red_mask (hsv : image) (h w i j : nat) :
  has_shape hsv h w → i < h → j < w →
  get (build_red_mask hsv) i j = Some 255%Z ↔
    ∃ a b, a < h ∧ b < w ∧ close 3 i a ∧ close 3 j b ∧
           cloak_around hsv 2 a b.
Proof.
  intros Hs Hi Hj. rewrite build_red_mask_unfold.
  pose proof (has_shape_raw_mask hsv h w Hs) as Hsr.
  pose proof (binary_raw_mask hsv) as Hbr.
  rewrite (get_dilate _ h w) by
    (done || by apply has_shape_erode || by apply binary_erode).
  split.
  - intros (a & b & Ha & Hb & Hg).
    destruct (get_has_shape _ h w _ _ _ (has_shape_erode _ _ _ _ _ Hsr) Hg)
      as [Hah Hbw].
    exists a, b. split_and!; try done.
    rewrite (get_erode _ h w) in Hg by done.
    intros a' b' p Ha' Hb' Hp.
    destruct (get_has_shape hsv h w a' b' p Hs Hp) as [Ha'h Hb'w].
    specialize (Hg a' b' Ha'h Hb'w Ha' Hb').
    apply raw_mask_255_iff in Hg as (p' & Hp' & Hc). congruence.
  - intros (a & b & Hah & Hbw & Ha & Hb & Hall).
    exists a, b. split_and!; try done.
    apply (get_erode _ h w); try done.
    intros a' b' Ha'h Hb'w Ha' Hb'.
    destruct (has_shape_get hsv h w a' b' Hs Ha'h Hb'w) as [p Hp].
    apply raw_mask_255_iff. exists p. split; [done|]. by eapply Hall.
Qed.

(** X4: the mask is set at a position exactly when, within 3 rows and
    columns of it, there is a position of the frame around which every
    pixel of the frame within 2 rows and columns is cloak-coloured. *)
Theorem mask_characterised (hsv : image) (h w i j : nat) :
  has_shape hsv h w → i < h → j < w →
  get (build_red_mask hsv) i j = Some 255%Z ↔
    ∃ a b, a < h ∧ b < w ∧ close 3 i a ∧ close 3 j b ∧
           cloak_around hsv 2 a b.
Proof. apply get_build_red_mask. Qed.

Lemma mask_characterised_witness :
  get (build_red_mask (Samples.block_frame 9 2 2 5 5)) 1 1 = Some 255%Z.
Proof.
  apply (mask_characterised (Samples.block_frame 9 2 2 5 5) 9 9 1 1).
  - apply has_shape_mimap, has_shape_replicate. lia.
  - lia.
  - lia.
  - exists 4, 4. unfold close. split_and!; try lia.
    intros a' b' p [? ?] [? ?]. unfold Samples.block_frame.
    rewrite get_mimap.
    destruct (get (replicate 9 (replicate 9 Samples.green_hsv)) a' b');
      [|done].
    simpl. rewrite bool_decide_eq_true_2 by (unfold in_block; lia).
    intros [= <-]. apply cloak_coloured_bounds. reflexivity.
Defined.

(** No cloak colour, no mask. *)
Lemma build_red_mask_no_cloak (hsv : image) (h w : nat) :
  has_shape hsv h w →
  (∀ i j p, get hsv i j = Some p → ¬ cloak_coloured p) →
  ∀ i j v, get (build_red_mask hsv) i j = Some v → v = 0%Z.
Proof.
  intros Hs Hnone i j v Hv.
  pose proof (binary_build_red_mask hsv) as Hb.
  unfold binary in Hb. rewrite all_cells_get in Hb.
  destruct (Hb _ _ _ Hv) as [-> | ->]; [done|]. exfalso.
  destruct (get_has_shape _ h w _ _ _ (has_shape_build_red_mask _ _ _ Hs) Hv)
    as [Hi Hj].
  apply (get_build_red_mask hsv h w i j Hs Hi Hj) in Hv
    as (a & b & Ha & Hb' & _ & _ & Hall).
  destruct (has_shape_get hsv h w a b Hs Ha Hb') as [p Hp].
  apply (Hnone a b p Hp). apply (Hall a b p); unfold close; (lia || done).
Qed.

(** X5: a frame without a cloak-coloured pixel gives a mask that is
    unset everywhere. *)
Theorem no_cloak_colour_no_mask (hsv : image) (h w : nat) :
  has_shape hsv h w →
  (∀ i j p, get hsv i j = Some p → ¬ cloak_coloured p) →
  ∀ i j v, get (build_red_mask hsv) i j = Some v → v = 0%Z.
Proof. apply build_red_mask_no_cloak. Qed.

Lemma no_cloak_colour_no_mask_witness :
  get (build_red_mask (Samples.cvt_sample Samples.grey22)) 1 0 = Some 0%Z.
Proof.
  assert (∀ v, get (build_red_mask (Samples.cvt_sample Samples.grey22)) 1 0
               = Some v → v = 0%Z) as H.
  { apply (no_cloak_colour_no_mask
             (Samples.cvt_sample Samples.grey22) 2 2).
    - repeat constructor.
    - intros i j p Hp Hc. apply cloak_coloured_bounds in Hc.
      destruct i as [|[|i]], j as [|[|j]]; try done;
        vm_compute in Hp; injection Hp as <-; done. }
  destruct (get (build_red_mask (Samples.cvt_sample Samples.grey22)) 1 0)
    as [v|] eqn:Hv; [|done].
  by rewrite (H v eq_refl).
Defined.

(** X6: wherever the mask is set, some pixel of the frame at most one
    row and one column away is cloak-coloured. *)
Theorem mask_stays_near_cloak_colour (hsv : image) (h w i j : nat) :
  has_shape hsv h w →
  get (build_red_mask hsv) i j = Some 255%Z →
  ∃ i' j' p, close 1 i i' ∧ close 1 j j' ∧
             get hsv i' j' = Some p ∧ cloak_coloured p.
Proof.
  intros Hs Hv.
  destruct (get_has_shape _ h w _ _ _ (has_shape_build_red_mask _ _ _ Hs) Hv)
    as [Hi Hj].
  apply (get_build_red_mask hsv h w i j Hs Hi Hj) in Hv
    as (a & b & Ha & Hb & [? ?] & [? ?] & Hall).
  set (i' := Nat.max (i - 1) (Nat.min (i + 1) a)).
  set (j' := Nat.max (j - 1) (Nat.min (j + 1) b)).
  destruct (has_shape_get hsv h w i' j' Hs) as [p Hp]; [lia..|].
  exists i', j', p. unfold close. split_and!; try lia; [done|].
  apply (Hall i' j' p); unfold close; (lia || done).
Qed.

Lemma mask_stays_near_cloak_colour_witness :
  ∃ i' j' p, close 1 1 i' ∧ close 1 1 j' ∧
    get (Samples.block_frame 9 2 2 5 5) i' j' = Some p ∧ cloak_coloured p.
Proof.
  apply (mask_stays_near_cloak_colour (Samples.block_frame 9 2 2 5 5) 9 9).
  - apply has_shape_mimap, has_shape_replicate. lia.
  - vm_compute. reflexivity.
Defined.

(** X7: when the cloak-coloured pixels lie in a band of at most 4 rows,
    or of at most 4 columns, that keeps off the border of the frame, the
    opening removes them all and the mask is unset everywhere. *)
Theorem thin_band_is_removed (hsv : image) (h w r0 c0 : nat) :
  has_shape hsv h w →
  (1 ≤ r0 ∧ r0 + 5 ≤ h ∧
   ∀ i j p, get hsv i j = Some p → cloak_coloured p → r0 ≤ i ≤ r0 + 3) ∨
  (1 ≤ c0 ∧ c0 + 5 ≤ w ∧
   ∀ i j p, get hsv i j = Some p → cloak_coloured p → c0 ≤ j ≤ c0 + 3) →
  ∀ i j v, get (build_red_mask hsv) i j = Some v → v = 0%Z.
Proof.
  intros Hs Hband i j v Hv.
  pose proof (binary_build_red_mask hsv) as Hb.
  unfold binary in Hb. rewrite all_cells_get in Hb.
  destruct (Hb _ _ _ Hv) as [-> | ->]; [done|]. exfalso.
  destruct (get_has_shape _ h w _ _ _ (has_shape_build_red_mask _ _ _ Hs) Hv)
    as [Hi Hj].
  apply (get_build_red_mask hsv h w i j Hs Hi Hj) in Hv
    as (a & b & Ha & Hb' & _ & _ & Hall).
  destruct Hband as [(H1 & H2 & Hrows) | (H1 & H2 & Hcols)].
  - set (a' := if decide (a ≤ r0 + 1) then a - 2 else Nat.min (a + 2) (h - 1)).
    assert (a' < h ∧ close 2 a a' ∧ ¬ (r0 ≤ a' ≤ r0 + 3)) as (Ha'h & Hc & Hout).
    { unfold a', close. case_decide; lia. }
    destruct (has_shape_get hsv h w a' b Hs Ha'h Hb') as [p Hp].
    apply Hout. apply (Hrows a' b p Hp).
    apply (Hall a' b p); unfold close; (lia || done).
  - set (b' := if decide (b ≤ c0 + 1) then b - 2 else Nat.min (b + 2) (w - 1)).
    assert (b' < w ∧ close 2 b b' ∧ ¬ (c0 ≤ b' ≤ c0 + 3)) as (Hb'w & Hc & Hout).
    { unfold b', close. case_decide; lia. }
    destruct (has_shape_get hsv h w a b' Hs Ha Hb'w) as [p Hp].
    apply Hout. apply (Hcols a b' p Hp).
    apply (Hall a b' p); unfold close; (lia || done).
Qed.

Lemma thin_band_is_removed_witness :
  get (build_red_mask (Samples.block_frame 9 2 2 4 5)) 3 4 = Some 0%Z.
Proof.
  assert (∀ v, get (build_red_mask (Samples.block_frame 9 2 2 4 5)) 3 4
               = Some v → v = 0%Z) as H.
  { apply (thin_band_is_removed (Samples.block_frame 9 2 2 4 5) 9 9 2 2).
    - apply has_shape_mimap, has_shape_replicate. lia.
    - left. split; [lia|]. split; [lia|].
      intros i j p. unfold Samples.block_frame. rewrite get_mimap.
      destruct (get (replicate 9 (replicate 9 Samples.green_hsv)) i j);
        [|done].
      simpl. case_bool_decide as Hb; intros [= <-] Hc.
      + unfold in_block in Hb. lia.
      + by apply cloak_coloured_bounds in Hc. }
  destruct (get (build_red_mask (Samples.block_frame 9 2 2 4 5)) 3 4)
    as [v|] eqn:Hv; [|done].
  by rewrite (H v eq_refl).
Defined.

(** X8: the mask grows with the cloak colour: when every position that
    is cloak-coloured in one frame is cloak-coloured in another frame of
    the same size, every position set in the mask of the first is set in
    the mask of the second. *)
Theorem mask_monotone (hsv1 hsv2 : image) (h w i j : nat) :
  has_shape hsv1 h w → has_shape hsv2 h w →
  (∀ a b p1 p2, get hsv1 a b = Some p1 → get hsv2 a b = Some p2 →
     cloak_coloured p1 → cloak_coloured p2) →
  get (build_red_mask hsv1) i j = Some 255%Z →
  get (build_red_mask hsv2) i j = Some 255%Z.
Proof.
  intros Hs1 Hs2 Hle Hv.
  destruct (get_has_shape _ h w _ _ _ (has_shape_build_red_mask _ _ _ Hs1) Hv)
    as [Hi Hj].
  apply (get_build_red_mask hsv1 h w i j Hs1 Hi Hj) in Hv
    as (a & b & Ha & Hb & Hca & Hcb & Hall).
  apply (get_build_red_mask hsv2 h w i j Hs2 Hi Hj).
  exists a, b. split_and!; try done.
  intros a' b' p2 Ha' Hb' Hp2.
  destruct (get_has_shape hsv2 h w a' b' p2 Hs2 Hp2) as [Ha'h Hb'w].
  destruct (has_shape_get hsv1 h w a' b' Hs1 Ha'h Hb'w) as [p1 Hp1].
  apply (Hle a' b' p1 p2 Hp1 Hp2). by apply (Hall a' b' p1).
Qed.

Lemma mask_monotone_witness :
  get (build_red_mask (Samples.block_frame 9 1 1 7 7)) 2 2 = Some 255%Z.
Proof.
  apply (mask_monotone (Samples.block_frame 9 2 2 5 5)
           (Samples.block_frame 9 1 1 7 7) 9 9 2 2).
  - apply has_shape_mimap, has_shape_replicate. lia.
  - apply has_shape_mimap, has_shape_replicate. lia.
  - intros a b p1 p2. unfold Samples.block_frame. rewrite !get_mimap.
    destruct (get (replicate 9 (replicate 9 Samples.green_hsv)) a b);
      [|done].
    simpl. intros [= <-] [= <-].
    case_bool_decide as H1; [|intros Hc; by apply cloak_coloured_bounds in Hc].
    intros _. rewrite bool_decide_eq_true_2; [by apply cloak_coloured_bounds|].
    unfold in_block in *. lia.
  - vm_compute. reflexivity.
Defined.

(** X9: the opening never adds to a mask: a position set after [n]
    erosions and [n] dilations was set before. *)
Theorem opening_only_removes (m : mask) (h w n i j : nat) :
  has_shape m h w → binary m →
  get (morphologyEx_OPEN m kernel n) i j = Some 255%Z →
  get m i j = Some 255%Z.
Proof.
  intros Hs Hb Hv. unfold morphologyEx_OPEN in Hv.
  pose proof (has_shape_erode m kernel n h w Hs) as Hse.
  destruct (get_has_shape _ h w _ _ _ (has_shape_dilate _ _ n _ _ Hse) Hv)
    as [Hi Hj].
  apply (get_dilate _ h w) in Hv as (a & b & [? ?] & [? ?] & Hg);
    [|done|by apply binary_erode|done..].
  destruct (get_has_shape _ h w _ _ _ Hse Hg) as [Ha Hb'].
  rewrite (get_erode m h w) in Hg by done.
  apply Hg; unfold close; (lia || done).
Qed.

Lemma opening_only_removes_witness :
  get (raw_mask (Samples.block_frame 9 2 2 5 5)) 2 6 = Some 255%Z.
Proof.
  apply (opening_only_removes (raw_mask (Samples.block_frame 9 2 2 5 5))
           9 9 2 2 6).
  - apply has_shape_raw_mask, has_shape_mimap, has_shape_replicate. lia.
  - apply binary_raw_mask.
  - vm_compute. reflexivity.
Defined.

(** X10: the dilation never removes from a mask: a position that is set
    stays set through [n] dilations. *)
Theorem dilation_only_adds (m : mask) (h w n i j : nat) :
  has_shape m h w → binary m →
  get m i j = Some 255%Z → get (dilate m kernel n) i j = Some 255%Z.
Proof.
  intros Hs Hb Hv.
  destruct (get_has_shape m h w i j _ Hs Hv) as [Hi Hj].
  apply (get_dilate m h w); try done.
  exists i, j. unfold close. split_and!; (lia || done).
Qed.

Lemma dilation_only_adds_witness :
  get (dilate [[0; 0; 0; 255]]%Z kernel 1) 0 3 = Some 255%Z.
Proof.
  apply (dilation_only_adds [[0; 0; 0; 255]]%Z 1 4 1 0 3).
  - repeat constructor.
  - repeat (apply List.Forall_cons || apply List.Forall_nil);
      unfold is_binary; auto.
  - reflexivity.
Defined.

End MaskFacts.

(** ** More on compositing *)

Section CompositeFacts.
Import Cloak.

(** Arrays of one shape with the same cells are equal. *)
Lemma mat_ext {A} (a b : mat A) h w :
  has_shape a h w → has_shape b h w →
  (∀ i j, i < h → j < w → get a i j = get b i j) → a = b.
Proof.
  intros (Hra & _ & Hla) (Hrb & _ & Hlb) Hget. unfold rows in *.
  apply list_eq. intros i.
  destruct (decide (i < h)) as [Hi|Hi].
  - destruct (lookup_lt_is_Some_2 a i) as [ra Ha]; [lia|].
    destruct (lookup_lt_is_Some_2 b i) as [rb Hb]; [lia|].
    rewrite Ha, Hb. f_equal.
    rewrite Forall_lookup in Hla. rewrite Forall_lookup in Hlb.
    pose proof (Hla _ _ Ha) as Hwa. pose proof (Hlb _ _ Hb) as Hwb.
    apply list_eq. intros j.
    destruct (decide (j < w)) as [Hj|Hj].
    + specialize (Hget i j Hi Hj). unfold get in Hget.
      by rewrite Ha, Hb in Hget.
    + rewrite !lookup_ge_None_2; (done || lia).
  - rewrite !lookup_ge_None_2; (done || lia).
Qed.

Lemma shape2_mmap {A B} (f : A → B) (m : mat A) :
  shape2 (mmap f m) = shape2 m.
Proof.
  unfold shape2, rows, cols, mmap. rewrite length_fmap.
  destruct m; simpl; [done|]. by rewrite length_fmap.
Qed.

Lemma shape2_mzip_with {A B C} (f : A → B → C) (a : mat A) (b : mat B) :
  shape2 a = shape2 b → shape2 (mzip_with f a b) = shape2 a.
Proof.
  unfold shape2, rows, cols, mzip_with.
  destruct a as [|ra a], b as [|rb b]; simpl; try done.
  intros [= Hr Hc]. rewrite !length_zip_with. f_equal; lia.
Qed.

Lemma same_shape_true {A B} (a : mat A) (b : mat B) :
  same_shape a b = true ↔ shape2 a = shape2 b.
Proof. unfold same_shape. apply bool_decide_eq_true. Qed.

Lemma same_shape_false {A B} (a : mat A) (b : mat B) :
  same_shape a b = false ↔ shape2 a ≠ shape2 b.
Proof. unfold same_shape. apply bool_decide_eq_false. Qed.

Lemma bitwise_and_self_cases src m :
  (shape2 src = shape2 m ∧
   ∃ out, bitwise_and src src m = Some out ∧ shape2 out = shape2 src) ∨
  (shape2 src ≠ shape2 m ∧ bitwise_and src src m = None).
Proof.
  unfold bitwise_and.
  assert (same_shape src src = true) as -> by by apply same_shape_true.
  simpl. destruct (same_shape src m) eqn:Hm.
  - left. apply same_shape_true in Hm. split; [done|].
    eexists. split; [done|].
    rewrite shape2_mzip_with; by rewrite shape2_mzip_with.
  - right. by apply same_shape_false in Hm.
Qed.

(** X11: the composite is an error exactly when the background or the
    frame differs in size from the mask; this is what the resize of the
    background in the loop prevents. *)
Theorem composite_fails_on_size_mismatch (frame bg : image) (cloak_mask : mask) :
  composite frame bg cloak_mask = None ↔
    shape2 bg ≠ shape2 cloak_mask ∨ shape2 frame ≠ shape2 cloak_mask.
Proof.
  unfold composite, background_part, current_part.
  destruct (bitwise_and_self_cases bg cloak_mask)
    as [(Hb & bp & -> & Hbp) | (Hb & ->)]; simpl; [|by intuition].
  destruct (bitwise_and_self_cases frame (bitwise_not cloak_mask))
    as [(Hf & cp & -> & Hcp) | (Hf & ->)]; simpl;
    unfold bitwise_not in Hf; rewrite shape2_mmap in Hf; [|by intuition].
  unfold add.
  assert (same_shape bp cp = true) as ->.
  { apply same_shape_true. congruence. }
  split; [done|]. intros [?|?]; done.
Qed.

Lemma composite_fails_on_size_mismatch_witness :
  composite Samples.cloak22 Samples.bg11
    (build_red_mask (Samples.cvt_sample Samples.cloak22)) = None.
Proof.
  apply (composite_fails_on_size_mismatch Samples.cloak22 Samples.bg11).
  left. vm_compute. intros [=].
Defined.

(** The composite under a mask set everywhere. *)
Lemma composite_full (frame bg : image) (cloak_mask : mask)
    (h w : nat) :
  has_shape frame h w → has_shape bg h w → has_shape cloak_mask h w →
  uint8_image bg →
  (∀ i j v, get cloak_mask i j = Some v → v = 255%Z) →
  composite frame bg cloak_mask = Some bg.
Proof.
  intros Hf Hb Hm Hub Hfull.
  destruct (composite_parts frame bg cloak_mask h w Hf Hb Hm)
    as (bp & cp & final & _ & _ & -> & _ & _ & Hsf & Hcell).
  f_equal. apply (mat_ext final bg h w Hsf Hb). intros i j Hi Hj.
  destruct (Hcell i j) as (Hbp & Hcp & ->). rewrite Hbp, Hcp.
  destruct (has_shape_get frame h w i j Hf Hi Hj) as [pf ->].
  destruct (has_shape_get bg h w i j Hb Hi Hj) as [pb Hpb].
  destruct (has_shape_get cloak_mask h w i j Hm Hi Hj) as [v Hv].
  rewrite Hpb, Hv, (Hfull _ _ _ Hv). simpl.
  unfold uint8_image in Hub. rewrite all_cells_get in Hub.
  by rewrite add_zero_r by eauto.
Qed.

(** X12: where the mask is set everywhere, the composite is the
    background itself. *)
Theorem composite_of_full_mask (frame bg : image) (cloak_mask : mask)
    (h w : nat) :
  has_shape frame h w → has_shape bg h w → has_shape cloak_mask h w →
  uint8_image bg →
  (∀ i j v, get cloak_mask i j = Some v → v = 255%Z) →
  composite frame bg cloak_mask = Some bg.
Proof. apply composite_full. Qed.

Lemma composite_of_full_mask_witness :
  composite Samples.frame12 Samples.bg12 [[255; 255]]%Z = Some Samples.bg12.
Proof.
  apply (composite_of_full_mask Samples.frame12 Samples.bg12
           [[255; 255]]%Z 1 2).
  - repeat constructor.
  - repeat constructor.
  - repeat constructor.
  - repeat (apply List.Forall_cons || apply List.Forall_nil);
      unfold uint8_pixel, uint8; simpl; lia.
  - intros [|i] [|[|j]] v Hv; vm_compute in Hv; by simplify_eq.
Defined.

(** The composite under a mask unset everywhere. *)
Lemma composite_empty (frame bg : image) (cloak_mask : mask)
    (h w : nat) :
  has_shape frame h w → has_shape bg h w → has_shape cloak_mask h w →
  uint8_image frame →
  (∀ i j v, get cloak_mask i j = Some v → v = 0%Z) →
  composite frame bg cloak_mask = Some frame.
Proof.
  intros Hf Hb Hm Huf Hnone.
  destruct (composite_parts frame bg cloak_mask h w Hf Hb Hm)
    as (bp & cp & final & _ & _ & -> & _ & _ & Hsf & Hcell).
  f_equal. apply (mat_ext final frame h w Hsf Hf). intros i j Hi Hj.
  destruct (Hcell i j) as (Hbp & Hcp & ->). rewrite Hbp, Hcp.
  destruct (has_shape_get frame h w i j Hf Hi Hj) as [pf Hpf].
  destruct (has_shape_get bg h w i j Hb Hi Hj) as [pb ->].
  destruct (has_shape_get cloak_mask h w i j Hm Hi Hj) as [v Hv].
  rewrite Hpf, Hv, (Hnone _ _ _ Hv). simpl.
  unfold uint8_image in Huf. rewrite all_cells_get in Huf.
  by rewrite add_zero_l by eauto.
Qed.

(** X13: where the mask is unset everywhere, the composite is the frame
    itself. *)
Theorem composite_of_empty_mask (frame bg : image) (cloak_mask : mask)
    (h w : nat) :
  has_shape frame h w → has_shape bg h w → has_shape cloak_mask h w →
  uint8_image frame →
  (∀ i j v, get cloak_mask i j = Some v → v = 0%Z) →
  composite frame bg cloak_mask = Some frame.
Proof. apply composite_empty. Qed.

Lemma composite_of_empty_mask_witness :
  composite Samples.frame12 Samples.bg12 [[0; 0]]%Z = Some Samples.frame12.
Proof.
  apply (composite_of_empty_mask Samples.frame12 Samples.bg12
           [[0; 0]]%Z 1 2).
  - repeat constructor.
  - repeat constructor.
  - repeat constructor.
  - repeat (apply List.Forall_cons || apply List.Forall_nil);
      unfold uint8_pixel, uint8; simpl; lia.
  - intros [|i] [|[|j]] v Hv; vm_compute in Hv; by simplify_eq.
Defined.

End CompositeFacts.

(** ** More on the session loop *)

Section TickFacts.
Import Cloak.
Variable cvtColor_BGR2HSV : image → image.
Variable resize : image → nat * nat → interpolation → image.
Hypothesis cvtColor_shape :
  ∀ src h w, has_shape src h w → has_shape (cvtColor_BGR2HSV src) h w.
Hypothesis resize_shape :
  ∀ src h w interp, 0 < h → 0 < w →
    has_shape (resize src (w, h) interp) h w.

Lemma all_cells_flip {A} (P : A → Prop) (m : mat A) :
  all_cells P m → all_cells P (flip m 1).
Proof.
  unfold all_cells, flip. simpl. intros H. apply Forall_fmap.
  eapply Forall_impl; [done|]. intros r Hr. simpl. by apply Forall_reverse.
Qed.

Lemma shape2_flip {A} (m : mat A) : shape2 (flip m 1) = shape2 m.
Proof.
  unfold shape2, rows, cols, flip. simpl. rewrite length_fmap.
  destruct m; simpl; [done|]. by rewrite length_reverse.
Qed.

Lemma fit_background_shape s frame h0 w0 h w :
  has_shape (bg s) h0 w0 → has_shape frame h w → 0 < h → 0 < w →
  has_shape (bg (fit_background resize s frame)) h w ∧
  shown (fit_background resize s frame) = shown s ∧
  (has_shape (bg s) h w → fit_background resize s frame = s).
Proof.
  intros Hb Hf Hh Hw. unfold fit_background.
  destruct Hf as (Hr & Hc & _).
  assert (shape2 frame = (h, w)) as -> by (unfold shape2; congruence).
  rewrite Hr, Hc. rewrite (has_shape_unique _ _ _ Hb).
  case_decide as Hd; simpl.
  - split_and!; [by apply resize_shape|done|].
    intros Hb'. pose proof (has_shape_unique _ _ _ Hb') as E.
    rewrite (has_shape_unique _ _ _ Hb) in E. done.
  - injection Hd as -> ->. done.
Qed.

Lemma tick_no_cloak s frame h0 w0 h w :
  has_shape (bg s) h0 w0 → has_shape frame h w → 0 < h → 0 < w →
  uint8_image frame →
  (∀ i j p, get (cvtColor_BGR2HSV (flip frame 1)) i j = Some p →
     ¬ cloak_coloured p) →
  ∃ s', tick cvtColor_BGR2HSV resize s (Some frame) = Some s' ∧
    shown s' = shown s ++ [flip frame 1].
Proof.
  intros Hb Hf Hh Hw Hu Hnone. simpl.
  pose proof (has_shape_flip frame h w Hf) as Hff.
  destruct (fit_background_shape s (flip frame 1) h0 w0 h w Hb Hff Hh Hw)
    as (Hbs & Hsh & _).
  rewrite (composite_empty (flip frame 1) _ _ h w); try done.
  - simpl. eexists. split; [done|]. simpl. by rewrite Hsh.
  - by apply has_shape_build_red_mask, cvtColor_shape.
  - by apply all_cells_flip.
  - apply (build_red_mask_no_cloak _ h w); [by apply cvtColor_shape|done].
Qed.

Lemma tick_all_cloak s frame h w :
  has_shape (bg s) h w → has_shape frame h w → 0 < h → 0 < w →
  uint8_image (bg s) →
  (∀ i j p, get (cvtColor_BGR2HSV (flip frame 1)) i j = Some p →
     cloak_coloured p) →
  tick cvtColor_BGR2HSV resize s (Some frame)
  = Some (Session (bg s) (resized s) (shown s ++ [bg s])).
Proof.
  intros Hb Hf Hh Hw Hu Hall. simpl.
  pose proof (has_shape_flip frame h w Hf) as Hff.
  destruct (fit_background_shape s (flip frame 1) h w h w Hb Hff Hh Hw)
    as (_ & _ & Hsame).
  rewrite (Hsame Hb).
  pose proof (cvtColor_shape _ _ _ Hff) as Hsc.
  rewrite (composite_full (flip frame 1) (bg s) _ h w); try done.
  - by apply has_shape_build_red_mask.
  - intros i j v Hv.
    pose proof (binary_build_red_mask (cvtColor_BGR2HSV (flip frame 1)))
      as Hbin.
    unfold binary in Hbin. rewrite all_cells_get in Hbin.
    destruct (get_has_shape _ h w _ _ _
                (has_shape_build_red_mask _ _ _ Hsc) Hv) as [Hi Hj].
    assert (get (build_red_mask (cvtColor_BGR2HSV (flip frame 1))) i j
            = Some 255%Z) as H255; [|congruence].
    apply (get_build_red_mask _ h w i j Hsc Hi Hj).
    exists i, j. unfold close. split_and!; try lia.
    intros a' b' p _ _ Hp. by eapply Hall.
Qed.

Lemma tick_shown_length s read s' :
  tick cvtColor_BGR2HSV resize s read = Some s' →
  length (shown s') = length (shown s) + length (option_list read).
Proof.
  destruct read as [f|]; simpl.
  - destruct (composite _ _ _) as [final|]; simpl; [|done].
    intros [= <-]. simpl. rewrite length_app. simpl.
    unfold fit_background. by case_decide.
  - intros [= <-]. lia.
Qed.

Lemma omap_id_cons {A} (r : option A) (l : list (option A)) :
  omap id (r :: l) = option_list r ++ omap id l.
Proof. by destruct r. Qed.

Lemma run_shown_length reads s s' :
  run cvtColor_BGR2HSV resize s reads = Some s' →
  length (shown s') = length (shown s) + length (omap id reads).
Proof.
  revert s. induction reads as [|r reads IH]; intros s Hrun.
  - injection Hrun as <-. simpl. lia.
  - cbn [run] in Hrun.
    destruct (tick cvtColor_BGR2HSV resize s r) as [s1|] eqn:Ht; [|done].
    simpl in Hrun. rewrite (IH _ Hrun), (tick_shown_length _ _ _ Ht).
    rewrite omap_id_cons, length_app. lia.
Qed.

Lemma run_outputs bg0 h0 w0 h w reads :
  has_shape bg0 h0 w0 → 0 < h → 0 < w →
  Forall (λ r : option image, ∀ f, r = Some f → has_shape f h w) reads →
  ∃ s, run cvtColor_BGR2HSV resize (Session bg0 [] []) reads = Some s ∧
    length (shown s) = length (omap id reads).
Proof.
  intros Hb Hh Hw Hreads.
  destruct (run_inv cvtColor_BGR2HSV resize cvtColor_shape resize_shape
              bg0 h0 w0 h w Hb (conj Hh Hw) reads (Session bg0 [] []))
    as (s & Hrun & _); [|done|].
  { split; [by left|]. simpl. constructor. }
  exists s. split; [done|]. by rewrite (run_shown_length _ _ _ Hrun).
Qed.

End TickFacts.

Section TickTheorems.
Import Cloak.

(** X14: a delivered frame in which the conversion finds no
    cloak-coloured pixel is shown as it is, mirrored, whatever the
    background holds. *)
Theorem frame_without_cloak_passes_through
    (cvtColor_BGR2HSV : image → image)
    (resize : image → nat * nat → interpolation → image)
    (s : session) (frame : image) (h0 w0 h w : nat) :
  (∀ src h w, has_shape src h w → has_shape (cvtColor_BGR2HSV src) h w) →
  (∀ src h w interp, 0 < h → 0 < w →
     has_shape (resize src (w, h) interp) h w) →
  has_shape (bg s) h0 w0 → has_shape frame h w → 0 < h → 0 < w →
  uint8_image frame →
  (∀ i j p, get (cvtColor_BGR2HSV (flip frame 1)) i j = Some p →
     ¬ cloak_coloured p) →
  ∃ s', tick cvtColor_BGR2HSV resize s (Some frame) = Some s' ∧
    shown s' = shown s ++ [flip frame 1].
Proof. intros Hc Hr. by apply (tick_no_cloak _ _ Hc Hr). Qed.

Lemma frame_without_cloak_passes_through_witness :
  ∃ s', tick Samples.cvt_sample Samples.resize_sample
          (Session Samples.bg11 [] []) (Some Samples.grey22) = Some s' ∧
    shown s' = [Samples.grey22].
Proof.
  apply (frame_without_cloak_passes_through
           Samples.cvt_sample Samples.resize_sample
           (Session Samples.bg11 [] []) Samples.grey22 1 1 2 2).
  - intros src h w. apply has_shape_mmap.
  - apply has_shape_resize_sample.
  - repeat constructor.
  - repeat constructor.
  - lia.
  - lia.
  - repeat (apply List.Forall_cons || apply List.Forall_nil);
      unfold uint8_pixel, uint8; simpl; lia.
  - intros i j p Hp Hc. apply cloak_coloured_bounds in Hc.
    destruct i as [|[|i]], j as [|[|j]]; try done;
      vm_compute in Hp; injection Hp as <-; done.
Defined.

(** X15: when the background has the frame size and the conversion
    finds every pixel of a delivered frame cloak-coloured, the frame
    shown is the background itself, and the background stays as it is. *)
Theorem cloak_everywhere_shows_background
    (cvtColor_BGR2HSV : image → image)
    (resize : image → nat * nat → interpolation → image)
    (s : session) (frame : image) (h w : nat) :
  (∀ src h w, has_shape src h w → has_shape (cvtColor_BGR2HSV src) h w) →
  (∀ src h w interp, 0 < h → 0 < w →
     has_shape (resize src (w, h) interp) h w) →
  has_shape (bg s) h w → has_shape frame h w → 0 < h → 0 < w →
  uint8_image (bg s) →
  (∀ i j p, get (cvtColor_BGR2HSV (flip frame 1)) i j = Some p →
     cloak_coloured p) →
  tick cvtColor_BGR2HSV resize s (Some frame)
  = Some (Session (bg s) (resized s) (shown s ++ [bg s])).
Proof. intros Hc Hr. by apply (tick_all_cloak _ _ Hc Hr). Qed.

Lemma cloak_everywhere_shows_background_witness :
  tick Samples.cvt_sample Samples.resize_sample
    (Session Samples.grey22 [] []) (Some MoreSamples.red22)
  = Some (Session Samples.grey22 [] [Samples.grey22]).
Proof.
  apply (cloak_everywhere_shows_background
           Samples.cvt_sample Samples.resize_sample
           (Session Samples.grey22 [] []) MoreSamples.red22 2 2).
  - intros src h w. apply has_shape_mmap.
  - apply has_shape_resize_sample.
  - repeat constructor.
  - repeat constructor.
  - lia.
  - lia.
  - repeat (apply List.Forall_cons || apply List.Forall_nil);
      unfold uint8_pixel, uint8; simpl; lia.
  - intros i j p Hp. apply cloak_coloured_bounds.
    destruct i as [|[|i]], j as [|[|j]]; try done;
      vm_compute in Hp; injection Hp as <-; done.
Defined.

(** X16: over reads whose frames share one size the loop does not
    raise, and it shows one composited frame for every read that
    delivered a frame and none for a read that failed. *)
Theorem one_output_per_delivered_frame
    (cvtColor_BGR2HSV : image → image)
    (resize : image → nat * nat → interpolation → image)
    (bg0 : image) (h0 w0 h w : nat) (reads : list (option image)) :
  (∀ src h w, has_shape src h w → has_shape (cvtColor_BGR2HSV src) h w) →
  (∀ src h w interp, 0 < h → 0 < w →
     has_shape (resize src (w, h) interp) h w) →
  has_shape bg0 h0 w0 → 0 < h → 0 < w →
  Forall (λ r : option image, ∀ f, r = Some f → has_shape f h w) reads →
  ∃ s, run cvtColor_BGR2HSV resize (Session bg0 [] []) reads = Some s ∧
    length (shown s) = length (omap id reads).
Proof. intros Hc Hr. by apply (run_outputs _ _ Hc Hr). Qed.

Lemma one_output_per_delivered_frame_witness :
  ∃ s, run Samples.cvt_sample Samples.resize_sample
         (Session Samples.bg11 [] [])
         [None; Some Samples.cloak22; None; Some Samples.grey22] = Some s ∧
    length (shown s) = 2.
Proof.
  apply (one_output_per_delivered_frame
           Samples.cvt_sample Samples.resize_sample Samples.bg11 1 1 2 2
           [None; Some Samples.cloak22; None; Some Samples.grey22]).
  - intros src h w. apply has_shape_mmap.
  - apply has_shape_resize_sample.
  - repeat constructor.
  - lia.
  - lia.
  - repeat (apply List.Forall_cons || apply List.Forall_nil);
      intros f [= <-]; repeat constructor.
Defined.

End TickTheorems.

(** ** More on the median *)

Section MedianFacts.
Import Background.

Lemma occurrences_sorted v l :
  occurrences v (merge_sort Z.le l) = occurrences v l.
Proof.
  unfold occurrences. apply Permutation_length.
  by rewrite merge_sort_Permutation.
Qed.

Lemma occurrences_none v l : Forall (λ x, x ≠ v) l → occurrences v l = 0.
Proof.
  unfold occurrences. induction 1 as [|x l Hx _ IH]; [done|].
  by rewrite filter_cons_False.
Qed.

(** In sorted values, an index that leaves room neither before nor
    after it for the values that differ from [v] holds [v]. *)
Lemma sorted_majority_nth (s : list Z) v idx :
  StronglySorted Z.le s →
  length s - occurrences v s ≤ idx → idx < occurrences v s →
  nth idx s 0%Z = v.
Proof.
  intros Hs Hlo Hhi.
  assert (idx < length s) as Hidx.
  { pose proof (length_filter (λ x, x = v) s). unfold occurrences in *. lia. }
  destruct (lookup_lt_is_Some_2 s idx Hidx) as [u Hu].
  rewrite (nth_lookup_Some _ _ _ _ Hu).
  destruct (decide (u = v)) as [|Hne]; [done|]. exfalso.
  pose proof (take_drop_middle s idx u Hu) as Hsplit.
  rewrite <-Hsplit in Hs.
  pose proof (StronglySorted_app_1_r _ _ _ Hs) as Hr.
  apply StronglySorted_inv in Hr as [_ Hdrop].
  assert (Forall (λ x, (x ≤ u)%Z) (take idx s)) as Htake.
  { apply Forall_forall. intros x Hx.
    apply (StronglySorted_app_1_elem_of _ _ _ x u Hs Hx). by left. }
  assert (occurrences v s
          = occurrences v (take idx s) + occurrences v (drop (S idx) s))
    as Hocc.
  { rewrite <-Hsplit at 1. unfold occurrences.
    rewrite filter_app, filter_cons_False by done.
    by rewrite length_app. }
  pose proof (length_filter (λ x, x = v) (take idx s)) as Hlt.
  pose proof (length_filter (λ x, x = v) (drop (S idx) s)) as Hld.
  rewrite length_take in Hlt. rewrite length_drop in Hld.
  unfold occurrences in *.
  destruct (decide (u < v)%Z).
  - assert (length (filter (λ x, x = v) (take idx s)) = 0) as E.
    { apply (occurrences_none v). eapply Forall_impl; [exact Htake|].
      simpl. intros; lia. }
    lia.
  - assert (length (filter (λ x, x = v) (drop (S idx) s)) = 0) as E.
    { apply (occurrences_none v). eapply Forall_impl; [exact Hdrop|].
      simpl. intros; lia. }
    lia.
Qed.

(** A value held by more than half of the sample is its median. *)
Lemma np_median_majority l v :
  length l < 2 * occurrences v l →
  Qfloor (np_median l) = v ∧ (np_median l == inject_Z v)%Q.
Proof.
  intros Hmaj. unfold np_median.
  pose proof (StronglySorted_merge_sort Z.le l) as Hs.
  rewrite <-(occurrences_sorted v l), <-(sorted_length l) in Hmaj.
  set (s := merge_sort Z.le l) in *. set (n := length s) in *.
  pose proof (Nat.div_mod_eq n 2) as Hdiv.
  pose proof (Nat.mod_upper_bound n 2) as Hmod.
  assert (Nat.odd n = false → n = 2 * Nat.div n 2) as Heven.
  { intros Ho. rewrite <-Nat.negb_even in Ho.
    apply negb_false_iff, Nat.even_spec in Ho as [k Hk].
    lia. }
  destruct (Nat.odd n) eqn:Hodd.
  - rewrite (sorted_majority_nth s v) by (done || fold n; lia).
    by rewrite Qfloor_Z.
  - specialize (Heven eq_refl).
    rewrite !(sorted_majority_nth s v) by (done || fold n; lia).
    rewrite Qfloor_mean. split.
    + Z.div_mod_to_equations. lia.
    + unfold Qeq. simpl. lia.
Qed.

(** The median, rounded down, lies between two values of the sample. *)
Lemma np_median_between l :
  l ≠ [] →
  ∃ a b, a ∈ l ∧ b ∈ l ∧ (a ≤ Qfloor (np_median l) ≤ b)%Z.
Proof.
  intros Hne. unfold np_median.
  assert (0 < length (merge_sort Z.le l)) as Hn.
  { rewrite sorted_length. destruct l; [done|simpl; lia]. }
  assert (∀ k, k < length (merge_sort Z.le l) →
               nth k (merge_sort Z.le l) 0%Z ∈ l) as Hin.
  { intros k Hk. rewrite <-(merge_sort_Permutation Z.le l) at 2.
    by apply nth_elem_of. }
  set (s := merge_sort Z.le l) in *. set (n := length s) in *.
  pose proof (Nat.div_mod_eq n 2) as Hdiv.
  pose proof (Nat.mod_upper_bound n 2) as Hmod.
  destruct (Nat.odd n).
  - exists (nth (Nat.div n 2) s 0%Z), (nth (Nat.div n 2) s 0%Z).
    rewrite Qfloor_Z. split_and!; try (apply Hin; lia); lia.
  - rewrite Qfloor_mean.
    pose proof (Hin (Nat.div n 2 - 1)) as Hx.
    pose proof (Hin (Nat.div n 2)) as Hy.
    set (x := nth (Nat.div n 2 - 1) s 0%Z) in *.
    set (y := nth (Nat.div n 2) s 0%Z) in *.
    exists (Z.min x y), (Z.max x y). split_and!.
    + destruct (Z.min_spec x y) as [[_ ->]|[_ ->]]; [apply Hx|apply Hy]; lia.
    + destruct (Z.max_spec x y) as [[_ ->]|[_ ->]]; [apply Hy|apply Hx]; lia.
    + Z.div_mod_to_equations. lia.
    + Z.div_mod_to_equations. lia.
Qed.

Lemma elem_of_samples_chan frames i j c a :
  a ∈ chan c <$> samples frames i j →
  ∃ f q, f ∈ frames ∧ get f i j = Some q ∧ chan c q = a.
Proof.
  intros Ha. apply list_elem_of_fmap in Ha as (q & -> & Hq).
  unfold samples in Hq. apply list_elem_of_omap in Hq as (f & Hf & Hg).
  eauto.
Qed.

(** The stored frame, cell by cell, for 8-bit captures of one size. *)
Lemma median_background_cells frames h w :
  frames ≠ [] → Forall (λ f : image, has_shape f h w) frames →
  Forall uint8_image frames →
  ∃ out, median_background frames = Some out ∧ has_shape out h w ∧
    uint8_image out ∧
    ∀ i j, i < h → j < w →
      ∃ p, get out i j = Some p ∧
        ∀ c, chan c <$> samples frames i j ≠ [] ∧
             chan c p = Qfloor (np_median (chan c <$> samples frames i j)).
Proof.
  intros Hne Hall Hu8.
  destruct (median_background_spec frames h w Hne Hall)
    as (out & Hout & Hs & Hcell).
  assert (∀ i j c, i < h → j < w →
    chan c <$> samples frames i j ≠ [] ∧
    astype_uint8 (np_median (chan c <$> samples frames i j))
    = Qfloor (np_median (chan c <$> samples frames i j)) ∧
    uint8 (Qfloor (np_median (chan c <$> samples frames i j)))) as Hval.
  { intros i j c Hi Hj.
    pose proof (samples_Forall2 frames h w i j Hall Hi Hj) as Hsam.
    apply Forall2_length in Hsam.
    assert (chan c <$> samples frames i j ≠ []) as Hvne.
    { intros E. apply (f_equal length) in E.
      rewrite length_fmap in E. destruct frames; [done|].
      cbn [length] in *. by pose proof (eq_trans Hsam E). }
    split; [done|]. apply astype_np_median; [done|].
    apply Forall_fmap. eapply Forall_impl; [by apply samples_uint8|].
    intros q Hq. by apply chan_uint8. }
  exists out. split_and!; try done.
  - apply all_cells_get. intros i j p Hp.
    destruct (get_has_shape out h w i j p Hs Hp) as [Hi Hj].
    destruct (Hcell i j Hi Hj) as (p' & Hp' & Hchan).
    assert (p' = p) as -> by congruence.
    unfold uint8_pixel.
    pose proof (Hchan C0) as H0. pose proof (Hchan C1) as H1.
    pose proof (Hchan C2) as H2. simpl in H0, H1, H2.
    rewrite H0, H1, H2.
    destruct (Hval i j C0 Hi Hj) as (_ & -> & ?).
    destruct (Hval i j C1 Hi Hj) as (_ & -> & ?).
    destruct (Hval i j C2 Hi Hj) as (_ & -> & ?). done.
  - intros i j Hi Hj. destruct (Hcell i j Hi Hj) as (p & Hp & Hchan).
    exists p. split; [done|]. intros c.
    destruct (Hval i j c Hi Hj) as (Hvne & Hfl & _).
    split; [done|]. by rewrite Hchan.
Qed.

Lemma px_ext {A} (p q : px A) : (∀ c, chan c p = chan c q) → p = q.
Proof.
  intros H. destruct p, q.
  pose proof (H C0). pose proof (H C1). pose proof (H C2).
  simpl in *. congruence.
Qed.

Lemma median_in_range frames h w :
  frames ≠ [] → Forall (λ f : image, has_shape f h w) frames →
  Forall uint8_image frames →
  ∃ out, median_background frames = Some out ∧
    ∀ i j c, i < h → j < w →
      ∃ p f1 q1 f2 q2, get out i j = Some p ∧
        f1 ∈ frames ∧ get f1 i j = Some q1 ∧
        f2 ∈ frames ∧ get f2 i j = Some q2 ∧
        (chan c q1 ≤ chan c p ≤ chan c q2)%Z.
Proof.
  intros Hne Hall Hu8.
  destruct (median_background_cells frames h w Hne Hall Hu8)
    as (out & Hout & _ & _ & Hcell).
  exists out. split; [done|]. intros i j c Hi Hj.
  destruct (Hcell i j Hi Hj) as (p & Hp & Hchan).
  destruct (Hchan c) as [Hvne Hc].
  destruct (np_median_between _ Hvne) as (a & b & Ha & Hb & Hab).
  apply elem_of_samples_chan in Ha as (f1 & q1 & Hf1 & Hq1 & <-).
  apply elem_of_samples_chan in Hb as (f2 & q2 & Hf2 & Hq2 & <-).
  exists p, f1, q1, f2, q2. rewrite Hc. split_and!; try done; apply Hab.
Qed.

Lemma median_majority frames h w :
  frames ≠ [] → Forall (λ f : image, has_shape f h w) frames →
  Forall uint8_image frames →
  ∃ out, median_background frames = Some out ∧
    ∀ i j c v, i < h → j < w →
      length frames < 2 * occurrences v (chan c <$> samples frames i j) →
      ∃ p, get out i j = Some p ∧ chan c p = v.
Proof.
  intros Hne Hall Hu8.
  destruct (median_background_cells frames h w Hne Hall Hu8)
    as (out & Hout & _ & _ & Hcell).
  exists out. split; [done|]. intros i j c v Hi Hj Hmaj.
  destruct (Hcell i j Hi Hj) as (p & Hp & Hchan).
  exists p. split; [done|]. destruct (Hchan c) as [_ ->].
  apply np_median_majority.
  eapply Nat.le_lt_trans; [|exact Hmaj]. rewrite length_fmap.
  apply Nat.eq_le_incl. symmetry.
  exact (Forall2_length _ _ _ (samples_Forall2 frames h w i j Hall Hi Hj)).
Qed.

Lemma median_of_still_scene frames f h w :
  frames ≠ [] → Forall (eq f) frames → has_shape f h w → uint8_image f →
  median_background frames = Some f.
Proof.
  intros Hne Heq Hs Hu.
  assert (Forall (λ g : image, has_shape g h w) frames) as Hall.
  { eapply Forall_impl; [exact Heq|]. by intros g <-. }
  assert (Forall uint8_image frames) as Hu8.
  { eapply Forall_impl; [exact Heq|]. by intros g <-. }
  destruct (median_background_cells frames h w Hne Hall Hu8)
    as (out & Hout & Hso & _ & Hcell).
  rewrite Hout. f_equal. apply (mat_ext out f h w Hso Hs).
  intros i j Hi Hj. destruct (Hcell i j Hi Hj) as (p & Hp & Hchan).
  destruct (has_shape_get f h w i j Hs Hi Hj) as [q Hq].
  rewrite Hp, Hq. f_equal. apply px_ext. intros c.
  destruct (Hchan c) as [_ ->].
  assert (samples frames i j = replicate (length frames) q) as ->.
  { clear -Heq Hq. unfold samples.
    induction Heq as [|g gs <- _ IH]; simpl; [done|].
    rewrite Hq. by f_equal. }
  apply np_median_majority. rewrite fmap_replicate, length_replicate.
  unfold occurrences.
  assert (filter (λ x, x = chan c q) (replicate (length frames) (chan c q))
          = replicate (length frames) (chan c q)) as ->.
  { induction (length frames) as [|n IH]; simpl; [done|].
    rewrite filter_cons_True by done. by f_equal. }
  rewrite length_replicate. destruct frames; [done|]. simpl. lia.
Qed.

End MedianFacts.

(** ** More on background acquisition *)

Section AcquireFacts.
Import Background.

Lemma on_space_frames abspath cap pos args_frames args_output :
  on_space abspath cap pos args_frames args_output =
    let frames := (λ f : image, flip f 1)
                    <$> delivered cap pos (Z.to_nat args_frames) in
    let capturing :=
      Print "Capturing background... please keep the scene still." in
    match frames with
    | [] => ([capturing; Print "Failed to capture frames. Try again."],
             Continue, pos + Z.to_nat args_frames)
    | _ :: _ =>
        match median_background frames with
        | None => ([capturing], Raise, pos + Z.to_nat args_frames)
        | Some median =>
            ([capturing; ImWrite args_output median;
              Print ("Saved background to " +:+ abspath args_output);
              ImShow "Saved Background" median], Break,
             pos + Z.to_nat args_frames)
        end
    end.
Proof. unfold on_space. by rewrite capture_loop_spec. Qed.

Lemma on_space_success abspath cap pos args_frames args_output h w :
  delivered cap pos (Z.to_nat args_frames) ≠ [] →
  Forall (λ f : image, has_shape f h w)
         (delivered cap pos (Z.to_nat args_frames)) →
  Forall uint8_image (delivered cap pos (Z.to_nat args_frames)) →
  ∃ median,
    on_space abspath cap pos args_frames args_output =
      ([Print "Capturing background... please keep the scene still.";
        ImWrite args_output median;
        Print ("Saved background to " +:+ abspath args_output);
        ImShow "Saved Background" median], Break,
       pos + Z.to_nat args_frames) ∧
    has_shape median h w ∧ uint8_image median.
Proof.
  intros Hne Hall Hu8. rewrite on_space_frames.
  set (frames := (λ f : image, flip f 1)
                   <$> delivered cap pos (Z.to_nat args_frames)).
  assert (frames ≠ []) as Hfne.
  { unfold frames. by destruct (delivered cap pos (Z.to_nat args_frames)). }
  assert (Forall (λ f : image, has_shape f h w) frames) as Hfs.
  { unfold frames. apply Forall_fmap. eapply Forall_impl; [exact Hall|].
    intros f Hf. by apply has_shape_flip. }
  assert (Forall uint8_image frames) as Hfu.
  { unfold frames. apply Forall_fmap. eapply Forall_impl; [exact Hu8|].
    intros f Hf. by apply all_cells_flip. }
  destruct (median_background_cells frames h w Hfne Hfs Hfu)
    as (out & Hout & Hso & Huo & _).
  exists out. simpl. rewrite Hout. by destruct frames.
Qed.

Lemma on_space_mixed_sizes abspath cap pos args_frames args_output f1 f2 :
  f1 ∈ delivered cap pos (Z.to_nat args_frames) →
  f2 ∈ delivered cap pos (Z.to_nat args_frames) →
  shape2 f1 ≠ shape2 f2 →
  on_space abspath cap pos args_frames args_output =
    ([Print "Capturing background... please keep the scene still."],
     Raise, pos + Z.to_nat args_frames).
Proof.
  intros H1 H2 Hne. rewrite on_space_frames.
  set (frames := (λ f : image, flip f 1)
                   <$> delivered cap pos (Z.to_nat args_frames)).
  assert (flip f1 1 ∈ frames) as Hg1
    by (by apply (list_elem_of_fmap_2 (λ f : image, flip f 1))).
  assert (flip f2 1 ∈ frames) as Hg2
    by (by apply (list_elem_of_fmap_2 (λ f : image, flip f 1))).
  assert (median_background frames = None) as Hnone.
  { unfold median_background, np_stack.
    destruct frames as [|g0 gs] eqn:E; [done|].
    destruct (forallb (λ f : image, same_shape g0 f) (g0 :: gs)) eqn:Hall;
      [|done].
    exfalso. rewrite forallb_forall in Hall.
    pose proof (Hall _ (proj1 (list_elem_of_In _ _) Hg1)) as E1.
    pose proof (Hall _ (proj1 (list_elem_of_In _ _) Hg2)) as E2.
    apply same_shape_true in E1, E2.
    rewrite shape2_flip in E1, E2. congruence. }
  simpl. rewrite Hnone. destruct frames; [|done].
  by apply elem_of_nil in Hg1.
Qed.

End AcquireFacts.

Section AcquireTheorems.
Import Background.

(** X17: every value of the stored background lies between two values
    captured at that position and channel: the median brings in no value
    outside the captured range. *)
Theorem background_within_captured_range (frames : list image) (h w : nat) :
  frames ≠ [] → Forall (λ f : image, has_shape f h w) frames →
  Forall uint8_image frames →
  ∃ out, median_background frames = Some out ∧
    ∀ i j c, i < h → j < w →
      ∃ p f1 q1 f2 q2, get out i j = Some p ∧
        f1 ∈ frames ∧ get f1 i j = Some q1 ∧
        f2 ∈ frames ∧ get f2 i j = Some q2 ∧
        (chan c q1 ≤ chan c p ≤ chan c q2)%Z.
Proof. apply median_in_range. Qed.

Lemma background_within_captured_range_witness :
  ∃ out p, median_background Samples.two_shots = Some out ∧
    get out 0 0 = Some p ∧ (1 ≤ ch0 p ≤ 2)%Z.
Proof.
  destruct (background_within_captured_range Samples.two_shots 1 1)
    as (out & Hout & Hcell).
  - done.
  - repeat (apply List.Forall_cons || apply List.Forall_nil);
      repeat constructor.
  - repeat (apply List.Forall_cons || apply List.Forall_nil);
      unfold uint8_pixel, uint8; simpl; lia.
  - destruct (Hcell 0 0 C0) as (p & f1 & q1 & f2 & q2 & Hp & Hf1 & Hq1
                                & Hf2 & Hq2 & Hle); [lia|lia|].
    exists out, p. split; [done|]. split; [done|]. simpl in Hle.
    unfold Samples.two_shots in Hf1, Hf2.
    rewrite !elem_of_cons, elem_of_nil in Hf1.
    rewrite !elem_of_cons, elem_of_nil in Hf2.
    destruct Hf1 as [-> | [-> | []]], Hf2 as [-> | [-> | []]];
      vm_compute in Hq1, Hq2; injection Hq1 as <-; injection Hq2 as <-;
      simpl in Hle; lia.
Defined.

(** X18: where more than half of the captured frames hold the same
    value at a position and channel, the stored background holds that
    value there. *)
Theorem background_follows_majority (frames : list image) (h w : nat) :
  frames ≠ [] → Forall (λ f : image, has_shape f h w) frames →
  Forall uint8_image frames →
  ∃ out, median_background frames = Some out ∧
    ∀ i j c v, i < h → j < w →
      length frames < 2 * occurrences v (chan c <$> samples frames i j) →
      ∃ p, get out i j = Some p ∧ chan c p = v.
Proof. apply median_majority. Qed.

Lemma background_follows_majority_witness :
  ∃ out p, median_background Samples.three_shots = Some out ∧
    get out 0 0 = Some p ∧ ch1 p = 7%Z.
Proof.
  destruct (background_follows_majority Samples.three_shots 1 1)
    as (out & Hout & Hcell).
  - done.
  - repeat (apply List.Forall_cons || apply List.Forall_nil);
      repeat constructor.
  - repeat (apply List.Forall_cons || apply List.Forall_nil);
      unfold uint8_pixel, uint8; simpl; lia.
  - destruct (Hcell 0 0 C1 7%Z) as (p & Hp & Hv); [lia|lia| |].
    + vm_compute. lia.
    + exists out, p. by split_and!.
Defined.

(** X19: when every captured frame is the same 8-bit frame, the stored
    background is that frame. *)
Theorem still_scene_is_reproduced (frames : list image) (f : image)
    (h w : nat) :
  frames ≠ [] → Forall (eq f) frames → has_shape f h w → uint8_image f →
  median_background frames = Some f.
Proof. apply median_of_still_scene. Qed.

Lemma still_scene_is_reproduced_witness :
  median_background [Samples.grey22; Samples.grey22] = Some Samples.grey22.
Proof.
  apply (still_scene_is_reproduced [Samples.grey22; Samples.grey22]
           Samples.grey22 2 2).
  - done.
  - repeat constructor.
  - repeat constructor.
  - repeat (apply List.Forall_cons || apply List.Forall_nil);
      unfold uint8_pixel, uint8; simpl; lia.
Defined.

(** X20: when at least one of the reads of a capture delivers a frame
    and the delivered frames are 8-bit frames of one size, the handler
    writes one image to the output path, of that size and with 8-bit
    values, prints the absolute path of the output file, shows the image
    and leaves the preview loop. *)
Theorem capture_writes_background (abspath : string → string)
    (cap : camera) (pos : nat) (args_frames : Z) (args_output : string)
    (h w : nat) :
  delivered cap pos (Z.to_nat args_frames) ≠ [] →
  Forall (λ f : image, has_shape f h w)
         (delivered cap pos (Z.to_nat args_frames)) →
  Forall uint8_image (delivered cap pos (Z.to_nat args_frames)) →
  ∃ median,
    on_space abspath cap pos args_frames args_output =
      ([Print "Capturing background... please keep the scene still.";
        ImWrite args_output median;
        Print ("Saved background to " +:+ abspath args_output);
        ImShow "Saved Background" median], Break,
       pos + Z.to_nat args_frames) ∧
    has_shape median h w ∧ uint8_image median.
Proof. apply on_space_success. Qed.

Lemma capture_writes_background_witness :
  ∃ median,
    on_space Samples.abspath Samples.flaky 0 3 "background.jpg" =
      ([Print "Capturing background... please keep the scene still.";
        ImWrite "background.jpg" median;
        Print "Saved background to /home/cloak/background.jpg";
        ImShow "Saved Background" median], Break, 3) ∧
    has_shape median 1 1 ∧ uint8_image median.
Proof.
  apply (capture_writes_background Samples.abspath Samples.flaky 0 3
           "background.jpg" 1 1).
  - vm_compute. intros [=].
  - repeat (apply List.Forall_cons || apply List.Forall_nil);
      repeat constructor.
  - repeat (apply List.Forall_cons || apply List.Forall_nil);
      unfold uint8_pixel, uint8; simpl; lia.
Defined.

(** X21: when two frames delivered during one capture differ in size,
    stacking them raises: the handler writes nothing and shows nothing. *)
Theorem capture_with_mixed_sizes_raises (abspath : string → string)
    (cap : camera) (pos : nat) (args_frames : Z) (args_output : string)
    (f1 f2 : image) :
  f1 ∈ delivered cap pos (Z.to_nat args_frames) →
  f2 ∈ delivered cap pos (Z.to_nat args_frames) →
  shape2 f1 ≠ shape2 f2 →
  on_space abspath cap pos args_frames args_output =
    ([Print "Capturing background... please keep the scene still."],
     Raise, pos + Z.to_nat args_frames).
Proof. apply on_space_mixed_sizes. Qed.

Lemma capture_with_mixed_sizes_raises_witness :
  on_space Samples.abspath MoreSamples.mixed 0 2 "background.jpg" =
    ([Print "Capturing background... please keep the scene still."],
     Raise, 2).
Proof.
  apply (capture_with_mixed_sizes_raises Samples.abspath
           MoreSamples.mixed 0 2
           "background.jpg" (Samples.shot 1) MoreSamples.wide_shot).
  - apply elem_of_delivered. exists 0. split; [lia|reflexivity].
  - apply elem_of_delivered. exists 1. split; [lia|reflexivity].
  - vm_compute. intros [=].
Defined.

End AcquireTheorems.

(** ** Snapshot names *)

Section Names.
Import CloakUI.

Lemma string_length_app (s1 s2 : string) :
  String.length (s1 +:+ s2) = String.length s1 + String.length s2.
Proof. induction s1 as [|c s1 IH]; simpl; [done|]. by rewrite IH. Qed.

Lemma string_app_inj_r (s1 s2 t : string) :
  s1 +:+ t = s2 +:+ t → s1 = s2.
Proof.
  revert s2. induction s1 as [|c s1 IH]; intros [|c' s2] H; simpl in H.
  - done.
  - apply (f_equal String.length) in H.
    rewrite !string_length_app in H. cbn [String.length] in H. lia.
  - apply (f_equal String.length) in H.
    rewrite !string_length_app in H. cbn [String.length] in H. lia.
  - cbn [String.append] in H. injection H as -> H. f_equal. by apply IH.
Qed.

(** The decimal form of a positive number does not start with a zero. *)
Lemma pretty_N_go_head (x : N) (s : string) :
  (0 < x)%N →
  ∃ c r, pretty_N_go x s = String c r ∧ c ≠ "0"%char.
Proof.
  revert s. induction (N.lt_wf_0 x) as [x _ IH]; intros s Hx.
  rewrite pretty_N_go_step by done.
  destruct (decide (x < 10)%N) as [Hlt|Hge].
  - rewrite N.div_small, pretty_N_go_0, N.mod_small by done.
    eexists _, _. split; [done|]. intros Hzero.
    apply (pretty_N_char_inj x 0) in Hzero; lia.
  - apply IH.
    + apply N.div_lt; lia.
    + apply N.div_str_pos. lia.
Qed.

Lemma pretty_nat_head (n : nat) :
  0 < n → ∃ c r, pretty n = String c r ∧ c ≠ "0"%char.
Proof.
  intros Hn. unfold pretty, pretty_nat, pretty, pretty_N.
  rewrite decide_False by lia. apply pretty_N_go_head. lia.
Qed.

Lemma format_02d_inj (n m : nat) : format_02d n = format_02d m → n = m.
Proof.
  unfold format_02d.
  destruct (Nat.ltb_spec n 10) as [Hn10|Hn10],
    (Nat.ltb_spec m 10) as [Hm10|Hm10]; intros H.
  - apply (inj (String.append "0")) in H. by apply (inj pretty).
  - destruct (pretty_nat_head m) as (c & r & Hm & Hc); [lia|].
    rewrite Hm in H. simpl in H. by injection H as <-.
  - destruct (pretty_nat_head n) as (c & r & Hn & Hc); [lia|].
    rewrite Hn in H. simpl in H. by injection H as ->.
  - by apply (inj pretty).
Qed.

Lemma snapshot_name_inj (n m : nat) :
  snapshot_name n = snapshot_name m → n = m.
Proof.
  unfold snapshot_name. intros H.
  apply (inj (String.append "snapshot_")) in H.
  apply string_app_inj_r in H. by apply format_02d_inj.
Qed.

End Names.

(** ** The loop with its keys *)

Section UIFacts.
Import Cloak CloakUI.
Variable cvtColor_BGR2HSV : image → image.
Variable resize : image → nat * nat → interpolation → image.
Variable putText : image → image.
Variable args_save : string.
Variable cap_fps : Q.

Local Abbreviation process := (process cvtColor_BGR2HSV resize).
Local Abbreviation loop_body :=
  (loop_body cvtColor_BGR2HSV resize putText args_save cap_fps).
Local Abbreviation main_loop :=
  (main_loop cvtColor_BGR2HSV resize putText args_save cap_fps).
Local Abbreviation recording_inv := (recording_inv args_save cap_fps).

Lemma process_tick s frame :
  tick cvtColor_BGR2HSV resize s (Some frame) =
    (λ sf : session * image,
       Session (bg sf.1) (resized sf.1) (shown sf.1 ++ [sf.2]))
      <$> process s frame.
Proof.
  unfold process. simpl.
  by destruct (composite _ _ _).
Qed.

Lemma process_shown s frame s' final :
  process s frame = Some (s', final) → shown s' = shown s.
Proof.
  unfold process.
  destruct (composite _ _ _); simpl; [|done]. intros [= <- _].
  unfold fit_background. by case_decide.
Qed.

(** What one pass does, by cases on the key. *)
Lemma loop_body_Some u frame k u' q :
  loop_body u frame k = Some (u', q) →
  ∃ s final, process (ui_session u) frame = Some (s, final) ∧
    ui_session u' = Session (bg s) (resized s) (shown s ++ [final]) ∧
    ui_displayed u' = ui_displayed u ++ [putText final] ∧
    ui_writer u' =
      match ui_writer u with
      | Some wr => Some wr
      | None =>
          if bool_decide (args_save ≠ "") then
            Some (Writer args_save (fourcc args_save) (writer_fps cap_fps)
                         (cols final, rows final))
          else None
      end ∧
    ui_written u' =
      match ui_writer u' with
      | Some _ => ui_written u ++ [final]
      | None => ui_written u
      end ∧
    q = quit_key (Z.land k 255) ∧
    (if negb q && bool_decide (Z.land k 255 = 115%Z) then
       ui_snapshot_idx u' = S (ui_snapshot_idx u) ∧
       ui_snapshots u' =
         ui_snapshots u ++ [(snapshot_name (ui_snapshot_idx u), final)] ∧
       ui_printed u' =
         ui_printed u ++ ["Saved " +:+ snapshot_name (ui_snapshot_idx u)]
     else
       ui_snapshot_idx u' = ui_snapshot_idx u ∧
       ui_snapshots u' = ui_snapshots u ∧
       ui_printed u' = ui_printed u).
Proof.
  unfold CloakUI.loop_body.
  destruct (process (ui_session u) frame) as [[s final]|]; simpl; [|done].
  intros H. exists s, final. split; [done|].
  destruct (quit_key (Z.land k 255)); simpl in *;
    [|destruct (bool_decide (Z.land k 255 = 115%Z))];
    injection H as <- <-; simpl; by split_and!.
Qed.

Lemma loop_body_is_Some u frame k :
  is_Some (tick cvtColor_BGR2HSV resize (ui_session u) (Some frame)) →
  is_Some (loop_body u frame k).
Proof.
  rewrite process_tick. unfold CloakUI.loop_body.
  destruct (process (ui_session u) frame) as [[s final]|]; simpl.
  - intros _. destruct (quit_key _); [|destruct (bool_decide _)]; by eexists.
  - by intros [? ?].
Qed.

Lemma loop_body_session u frame k u' q :
  loop_body u frame k = Some (u', q) →
  tick cvtColor_BGR2HSV resize (ui_session u) (Some frame)
  = Some (ui_session u').
Proof.
  intros H. apply loop_body_Some in H as (s & final & Hp & Hs & _).
  by rewrite process_tick, Hp, Hs.
Qed.

(** A property that every pass keeps holds at the end of the loop. *)
Lemma main_loop_invariant (P : ui → Prop) :
  (∀ u frame k u' q, P u → loop_body u frame k = Some (u', q) → P u') →
  ∀ reads u keys u' q,
    P u → main_loop u reads keys = Some (u', q) → P u'.
Proof.
  intros Hstep reads.
  induction reads as [|[frame|] reads IH]; intros u keys u' q HP; simpl.
  - by intros [= <- _].
  - destruct (loop_body u frame (hd (-1)%Z keys)) as [[u1 [|]]|] eqn:Hb;
      [|by eauto|done].
    intros [= <- _]. by eapply Hstep.
  - by apply IH.
Qed.

Lemma drop_tl {A} (n : nat) (l : list A) : drop n (tl l) = drop (S n) l.
Proof. by destruct l; [destruct n|]. Qed.

Lemma main_loop_append pre rest u keys :
  main_loop u (pre ++ rest) keys =
    match main_loop u pre keys with
    | Some (u1, false) =>
        main_loop u1 rest (drop (length (omap id pre)) keys)
    | r => r
    end.
Proof.
  revert u keys.
  induction pre as [|[frame|] pre IH]; intros u keys.
  - done.
  - rewrite omap_id_cons. cbn [app CloakUI.main_loop].
    destruct (loop_body u frame (hd (-1)%Z keys)) as [[u1 [|]]|];
      [done| |done].
    rewrite IH. destruct (main_loop u1 pre (tl keys)) as [[u2 [|]]|];
      [done| |done].
    by rewrite drop_tl.
  - rewrite omap_id_cons. cbn [app CloakUI.main_loop]. by rewrite IH.
Qed.

Lemma quit_stops u pre frame post keys u1 :
  main_loop u pre keys = Some (u1, false) →
  quit_key (Z.land (hd (-1)%Z (drop (length (omap id pre)) keys)) 255)
  = true →
  main_loop u (pre ++ Some frame :: post) keys
  = main_loop u (pre ++ [Some frame]) keys ∧
  ∀ u2 q, main_loop u (pre ++ [Some frame]) keys = Some (u2, q) →
    q = true ∧
    length (ui_displayed u2) = S (length (ui_displayed u1)) ∧
    ui_snapshots u2 = ui_snapshots u1.
Proof.
  intros Hpre Hq. rewrite !main_loop_append, Hpre.
  cbn [CloakUI.main_loop].
  set (k := hd (-1)%Z (drop (length (omap id pre)) keys)) in *.
  destruct (loop_body u1 frame k) as [[u2 q]|] eqn:Hb; [|done].
  apply loop_body_Some in Hb
    as (s & final & _ & _ & Hd & _ & _ & -> & Hsnap).
  rewrite Hq in *. simpl in Hsnap. destruct Hsnap as (_ & Hsn & _).
  split; [done|]. intros u3 q' [= <- <-].
  rewrite Hd, length_app. simpl. split_and!; (done || lia).
Qed.

(** *** The recording *)

Lemma recording_step u frame k u' q :
  recording_inv u → loop_body u frame k = Some (u', q) → recording_inv u'.
Proof.
  intros [Hoff Hon] Hb.
  apply loop_body_Some in Hb
    as (s & final & Hp & Hs & _ & Hw & Hwr & _ & _).
  apply process_shown in Hp. split.
  - intros E. destruct (Hoff E) as [H1 H2].
    rewrite H2, bool_decide_eq_false_2 in Hw by (by intros ?).
    by rewrite Hwr, Hw.
  - intros E. destruct (Hon E) as [H1 H2].
    rewrite Hs. simpl. rewrite Hp, <-H1.
    destruct (ui_written u) as [|f0 rest] eqn:Hwritten.
    + rewrite H2, bool_decide_eq_true_2 in Hw by done.
      rewrite Hwr, Hw. done.
    + rewrite H2 in Hw. rewrite Hwr, Hw. done.
Qed.

(** *** The snapshots *)

Lemma snapshots_step u frame k u' q :
  snapshots_inv u → loop_body u frame k = Some (u', q) → snapshots_inv u'.
Proof.
  intros (Hn & Hi & Hin & Hpr) Hb.
  apply loop_body_Some in Hb
    as (s & final & Hp & Hs & _ & _ & _ & _ & Hsnap).
  apply process_shown in Hp.
  assert (Forall (λ ni : string * image, ni.2 ∈ shown (ui_session u'))
                 (ui_snapshots u)) as Hin'.
  { eapply Forall_impl; [exact Hin|]. intros ni Hni. rewrite Hs. simpl.
    rewrite Hp. apply elem_of_app. by left. }
  destruct (negb q && bool_decide (Z.land k 255 = 115%Z)).
  - destruct Hsnap as (Hi' & Hs' & Hp'). unfold snapshots_inv.
    rewrite Hi', Hs', Hp', Hi. rewrite !fmap_app, length_app. simpl.
    rewrite Nat.add_1_r, seq_S, fmap_app, <-Hn, Hpr. simpl.
    split_and!; try done.
    apply Forall_app. split; [done|]. constructor; [|done]. simpl.
    rewrite Hs. simpl. apply elem_of_app. right. by left.
  - destruct Hsnap as (Hi' & Hs' & Hp'). unfold snapshots_inv.
    by rewrite Hi', Hs', Hp'.
Qed.

End UIFacts.

Section UITotal.
Import Cloak CloakUI.
Variable cvtColor_BGR2HSV : image → image.
Variable resize : image → nat * nat → interpolation → image.
Variable putText : image → image.
Variable args_save : string.
Variable cap_fps : Q.
Hypothesis cvtColor_shape :
  ∀ src h w, has_shape src h w → has_shape (cvtColor_BGR2HSV src) h w.
Hypothesis resize_shape :
  ∀ src h w interp, 0 < h → 0 < w →
    has_shape (resize src (w, h) interp) h w.
Variables (bg0 : image) (h0 w0 h w : nat).
Hypothesis bg0_shape : has_shape bg0 h0 w0.
Hypothesis frame_size : 0 < h ∧ 0 < w.

Local Abbreviation main_loop :=
  (main_loop cvtColor_BGR2HSV resize putText args_save cap_fps).

(** Over frames of one size no pass raises. *)
Lemma main_loop_total reads :
  Forall (λ r : option image, ∀ f, r = Some f → has_shape f h w) reads →
  ∀ u keys, session_inv resize bg0 h w (ui_session u) →
    ∃ u' q, main_loop u reads keys = Some (u', q) ∧
      session_inv resize bg0 h w (ui_session u').
Proof.
  induction 1 as [|r reads Hr _ IH]; intros u keys Hinv.
  - exists u, false. by split.
  - destruct r as [frame|]; cbn [CloakUI.main_loop]; [|by apply IH].
    destruct (tick_inv cvtColor_BGR2HSV resize cvtColor_shape resize_shape
                bg0 h0 w0 h w bg0_shape frame_size (ui_session u)
                (Some frame) Hinv Hr) as (s' & Ht & Hinv' & _).
    destruct (loop_body_is_Some cvtColor_BGR2HSV resize putText args_save
                cap_fps u frame (hd (-1)%Z keys)) as [[u1 q] Hb];
      [by rewrite Ht|].
    rewrite Hb.
    pose proof (loop_body_session _ _ _ _ _ _ _ _ _ _ Hb) as Hs.
    assert (ui_session u1 = s') as Hu1 by congruence.
    destruct q; [|apply IH; by rewrite Hu1].
    exists u1, true. split; [done|]. by rewrite Hu1.
Qed.

Lemma start_session_inv :
  session_inv resize bg0 h w (ui_session (start bg0)).
Proof. split; [by left|]. simpl. constructor. Qed.

Lemma main_loop_recording reads keys :
  Forall (λ r : option image, ∀ f, r = Some f → has_shape f h w) reads →
  ∃ u q, main_loop (start bg0) reads keys = Some (u, q) ∧
    (args_save = "" → ui_written u = [] ∧ ui_writer u = None) ∧
    (args_save ≠ "" →
       ui_written u = shown (ui_session u) ∧
       (ui_written u = [] → ui_writer u = None) ∧
       (ui_written u ≠ [] →
          ui_writer u =
            Some (Writer args_save (fourcc args_save) (writer_fps cap_fps)
                         (w, h)))).
Proof.
  intros Hreads.
  destruct (main_loop_total reads Hreads (start bg0) keys start_session_inv)
    as (u & q & Hrun & [_ Hshown]).
  exists u, q. split; [done|].
  assert (recording_inv args_save cap_fps u) as [Hoff Hon].
  { eapply (main_loop_invariant cvtColor_BGR2HSV resize putText args_save
              cap_fps (recording_inv args_save cap_fps));
      [apply recording_step| |exact Hrun].
    split; intros _; by simpl. }
  split; [done|]. intros E. destruct (Hon E) as [Hw Hwr].
  split; [done|]. rewrite <-Hw in Hshown.
  destruct (ui_written u) as [|f0 rest]; [by split|].
  split; [done|]. intros _. rewrite Hwr.
  apply Forall_cons_1 in Hshown as [(Hr & Hc & _) _]. by rewrite Hr, Hc.
Qed.

Lemma main_loop_snapshots reads keys :
  Forall (λ r : option image, ∀ f, r = Some f → has_shape f h w) reads →
  ∃ u q, main_loop (start bg0) reads keys = Some (u, q) ∧
    (ui_snapshots u).*1
    = snapshot_name <$> seq 1 (length (ui_snapshots u)) ∧
    NoDup (ui_snapshots u).*1 ∧
    Forall (λ ni : string * image, ni.2 ∈ shown (ui_session u))
           (ui_snapshots u) ∧
    ui_printed u
    = (λ ni : string * image, "Saved " +:+ ni.1) <$> ui_snapshots u.
Proof.
  intros Hreads.
  destruct (main_loop_total reads Hreads (start bg0) keys start_session_inv)
    as (u & q & Hrun & _).
  exists u, q. split; [done|].
  assert (snapshots_inv u) as (Hn & _ & Hin & Hpr).
  { eapply (main_loop_invariant cvtColor_BGR2HSV resize putText args_save
              cap_fps snapshots_inv);
      [apply snapshots_step| |exact Hrun].
    by split_and!; simpl. }
  split_and!; try done.
  rewrite Hn. apply NoDup_fmap_2_strong; [|apply NoDup_seq].
  intros a b _ _. apply snapshot_name_inj.
Qed.

End UITotal.

Section UITheorems.
Import Cloak CloakUI.

(** X23: when ESC or [q] is the low byte of the key read after a
    delivered frame, the loop ends with that frame, which is still
    composited and displayed; the reads that follow change nothing. *)
Theorem quit_key_ends_the_loop
    (cvtColor_BGR2HSV : image → image)
    (resize : image → nat * nat → interpolation → image)
    (putText : image → image) (args_save : string) (cap_fps : Q)
    (u : ui) (pre : list (option image)) (frame : image)
    (post : list (option image)) (keys : list Z) (u1 : ui) :
  main_loop cvtColor_BGR2HSV resize putText args_save cap_fps u pre keys
  = Some (u1, false) →
  quit_key (Z.land (hd (-1)%Z (drop (length (omap id pre)) keys)) 255)
  = true →
  main_loop cvtColor_BGR2HSV resize putText args_save cap_fps
    u (pre ++ Some frame :: post) keys
  = main_loop cvtColor_BGR2HSV resize putText args_save cap_fps
      u (pre ++ [Some frame]) keys ∧
  ∀ u2 q,
    main_loop cvtColor_BGR2HSV resize putText args_save cap_fps
      u (pre ++ [Some frame]) keys = Some (u2, q) →
    q = true ∧
    length (ui_displayed u2) = S (length (ui_displayed u1)) ∧
    ui_snapshots u2 = ui_snapshots u1.
Proof. apply quit_stops. Qed.

Lemma quit_key_ends_the_loop_witness :
  main_loop Samples.cvt_sample Samples.resize_sample id "" 0%Q
    (start Samples.grey22)
    ([Some Samples.grey22; None] ++ Some Samples.cloak22
       :: [Some Samples.grey22]) [0; 369]%Z
  = main_loop Samples.cvt_sample Samples.resize_sample id "" 0%Q
      (start Samples.grey22)
      ([Some Samples.grey22; None] ++ [Some Samples.cloak22]) [0; 369]%Z.
Proof.
  eapply (quit_key_ends_the_loop Samples.cvt_sample Samples.resize_sample
            id "" 0%Q (start Samples.grey22)
            [Some Samples.grey22; None] Samples.cloak22
            [Some Samples.grey22] [0; 369]%Z).
  - vm_compute. reflexivity.
  - reflexivity.
Defined.

(** X24: over frames of one size the loop does not raise; with a path
    to save to, the recording holds exactly the frames composited, in
    order, through a writer opened once with the frame size; without a
    path no writer is opened and nothing is recorded. *)
Theorem recording_holds_the_composited_frames
    (cvtColor_BGR2HSV : image → image)
    (resize : image → nat * nat → interpolation → image)
    (putText : image → image) (args_save : string) (cap_fps : Q)
    (bg0 : image) (h0 w0 h w : nat)
    (reads : list (option image)) (keys : list Z) :
  (∀ src h w, has_shape src h w → has_shape (cvtColor_BGR2HSV src) h w) →
  (∀ src h w interp, 0 < h → 0 < w →
     has_shape (resize src (w, h) interp) h w) →
  has_shape bg0 h0 w0 → 0 < h → 0 < w →
  Forall (λ r : option image, ∀ f, r = Some f → has_shape f h w) reads →
  ∃ u q,
    main_loop cvtColor_BGR2HSV resize putText args_save cap_fps
      (start bg0) reads keys = Some (u, q) ∧
    (args_save = "" → ui_written u = [] ∧ ui_writer u = None) ∧
    (args_save ≠ "" →
       ui_written u = shown (ui_session u) ∧
       (ui_written u = [] → ui_writer u = None) ∧
       (ui_written u ≠ [] →
          ui_writer u =
            Some (Writer args_save (fourcc args_save) (writer_fps cap_fps)
                         (w, h)))).
Proof.
  intros Hc Hr Hb Hh Hw.
  by apply (main_loop_recording _ _ _ _ _ Hc Hr _ _ _ _ _ Hb (conj Hh Hw)).
Qed.

Lemma recording_holds_the_composited_frames_witness :
  ∃ u q,
    main_loop Samples.cvt_sample Samples.resize_sample id "out.mp4" 30%Q
      (start Samples.bg11)
      [Some Samples.grey22; None; Some Samples.cloak22] [0; 113]%Z
    = Some (u, q) ∧
    length (ui_written u) = 2 ∧ w_size <$> ui_writer u = Some (2, 2).
Proof.
  destruct (recording_holds_the_composited_frames
              Samples.cvt_sample Samples.resize_sample id "out.mp4" 30%Q
              Samples.bg11 1 1 2 2
              [Some Samples.grey22; None; Some Samples.cloak22] [0; 113]%Z)
    as (u & q & Hrun & _ & Hon).
  - intros src h w. apply has_shape_mmap.
  - apply has_shape_resize_sample.
  - repeat constructor.
  - lia.
  - lia.
  - repeat (apply List.Forall_cons || apply List.Forall_nil);
      intros f [= <-]; repeat constructor.
  - exists u, q. split; [done|].
    destruct Hon as (Hw & _ & Hwr); [done|].
    vm_compute in Hrun. injection Hrun as <- <-.
    split; [reflexivity|]. rewrite Hwr; [reflexivity|done].
Defined.

(** X25: over frames of one size the loop does not raise, and the
    snapshots it saves are named [snapshot_01.png], [snapshot_02.png],
    ... in the order of the [s] keys, all names differ, each file holds
    a frame composited in the session, and each is reported by a line. *)
Theorem snapshots_are_numbered
    (cvtColor_BGR2HSV : image → image)
    (resize : image → nat * nat → interpolation → image)
    (putText : image → image) (args_save : string) (cap_fps : Q)
    (bg0 : image) (h0 w0 h w : nat)
    (reads : list (option image)) (keys : list Z) :
  (∀ src h w, has_shape src h w → has_shape (cvtColor_BGR2HSV src) h w) →
  (∀ src h w interp, 0 < h → 0 < w →
     has_shape (resize src (w, h) interp) h w) →
  has_shape bg0 h0 w0 → 0 < h → 0 < w →
  Forall (λ r : option image, ∀ f, r = Some f → has_shape f h w) reads →
  ∃ u q,
    main_loop cvtColor_BGR2HSV resize putText args_save cap_fps
      (start bg0) reads keys = Some (u, q) ∧
    (ui_snapshots u).*1
    = snapshot_name <$> seq 1 (length (ui_snapshots u)) ∧
    NoDup (ui_snapshots u).*1 ∧
    Forall (λ ni : string * image, ni.2 ∈ shown (ui_session u))
           (ui_snapshots u) ∧
    ui_printed u
    = (λ ni : string * image, "Saved " +:+ ni.1) <$> ui_snapshots u.
Proof.
  intros Hc Hr Hb Hh Hw.
  by apply (main_loop_snapshots _ _ _ _ _ Hc Hr _ _ _ _ _ Hb (conj Hh Hw)).
Qed.

Lemma snapshots_are_numbered_witness :
  ∃ u q,
    main_loop Samples.cvt_sample Samples.resize_sample id "" 0%Q
      (start Samples.bg11)
      [Some Samples.grey22; Some Samples.cloak22; Some Samples.grey22]
      [115; 0; 115]%Z
    = Some (u, q) ∧
    (ui_snapshots u).*1 = ["snapshot_01.png"; "snapshot_02.png"].
Proof.
  destruct (snapshots_are_numbered
              Samples.cvt_sample Samples.resize_sample id "" 0%Q
              Samples.bg11 1 1 2 2
              [Some Samples.grey22; Some Samples.cloak22; Some Samples.grey22]
              [115; 0; 115]%Z)
    as (u & q & Hrun & Hnames & _).
  - intros src h w. apply has_shape_mmap.
  - apply has_shape_resize_sample.
  - repeat constructor.
  - lia.
  - lia.
  - repeat (apply List.Forall_cons || apply List.Forall_nil);
      intros f [= <-]; repeat constructor.
  - exists u, q. split; [done|]. rewrite Hnames.
    vm_compute in Hrun. injection Hrun as <- <-. reflexivity.
Defined.

End UITheorems.

(** ** The preview loop *)

Section PreviewFacts.
Import Background Preview.

Lemma writes_app l1 l2 : writes (l1 ++ l2) = writes l1 ++ writes l2.
Proof. apply omap_app. Qed.

Lemma on_space_writes abspath cap pos args_frames args_output :
  let r := on_space abspath cap pos args_frames args_output in
  (r.1.2 = Break ∧ ∃ median, writes r.1.1 = [(args_output, median)]) ∨
  (r.1.2 ≠ Break ∧ writes r.1.1 = []).
Proof.
  rewrite on_space_frames. simpl.
  destruct ((λ f : image, flip f 1)
              <$> delivered cap pos (Z.to_nat args_frames)) as [|g gs];
    [by right|].
  destruct (median_background (g :: gs)) as [median|]; [|by right].
  left. split; [done|]. by exists median.
Qed.

Lemma preview_writes putText abspath args_frames args_output passes :
  ∀ cap pos keys,
    let r :=
      preview putText abspath args_frames args_output passes cap pos keys in
    (r.2 = Captured ∧ ∃ median, writes r.1 = [(args_output, median)]) ∨
    (r.2 ≠ Captured ∧ writes r.1 = []).
Proof.
  induction passes as [|passes IH]; intros cap pos keys; [by right|].
  cbn [preview]. destruct (cap pos) as [frame|]; [|apply IH].
  case_bool_decide; [by right|].
  case_bool_decide.
  - pose proof (on_space_writes abspath cap (S pos) args_frames args_output)
      as Hw.
    cbv zeta in Hw.
    destruct (on_space abspath cap (S pos) args_frames args_output)
      as [[evs ctl] pos'].
    simpl in Hw. simpl. destruct ctl.
    + destruct Hw as [[? _]|[_ Hnone]]; [done|].
      cbn [fst snd]. change (writes (?e :: ?l)) with (writes l).
      rewrite writes_app, Hnone. apply IH.
    + destruct Hw as [[_ Hm]|[? _]]; [|done].
      left. split; [done|]. exact Hm.
    + destruct Hw as [[? _]|[_ Hnone]]; [done|].
      right. split; [done|]. exact Hnone.
  - cbn [fst snd]. apply IH.
Qed.

End PreviewFacts.

Section PreviewTheorems.
Import Background Preview.

(** X26: whatever the camera delivers and whatever keys come, a run of
    the preview loop writes at most one image file; it writes one
    exactly when it ends by a capture, and then to the output path. *)
Theorem preview_writes_at_most_once (putText : image → image)
    (abspath : string → string) (args_frames : Z) (args_output : string)
    (passes : nat) (cap : camera) (pos : nat) (keys : list Z) :
  let r :=
    preview putText abspath args_frames args_output passes cap pos keys in
  (r.2 = Captured ∧ ∃ median, writes r.1 = [(args_output, median)]) ∨
  (r.2 ≠ Captured ∧ writes r.1 = []).
Proof. apply preview_writes. Qed.

End PreviewTheorems.
